(** * The syntax-tree text formatter [formatAST]

    A shallow embedding of the function [formatAST] of the command-line
    script, the only first-party logic of the repository: it re-indents
    the parenthesised, single-line serialisation of a syntax tree.

    JavaScript strings are sequences of UTF-16 code units; [ast[i]] reads
    one code unit, [ast.length] counts them.  The embedding keeps the
    source's index arithmetic ([i], [i - 1], [i--], [i++]) on [Z], and
    makes the one fault the code can raise explicit:
    [String.prototype.repeat] throws a [RangeError] on a negative count.
    The counts of the loop are integers; the count that a caller gives as
    the second argument is any Number, which [repeat] truncates and checks
    against the longest string of the engine ([formatAST_number]).  The
    limit of the engine on the strings the loop builds is outside the
    model. *)

From Stdlib Require Import ZArith NArith QArith Bool Lia String Ascii List.
Import ListNotations.

Local Open Scope string_scope.
Local Open Scope list_scope.
Local Open Scope Z_scope.

(** ** Strings *)

Definition code_unit := N.
Definition js_string := list code_unit.

Definition lparen  : code_unit := 40%N.
Definition rparen  : code_unit := 41%N.
Definition space   : code_unit := 32%N.
Definition newline : code_unit := 10%N.

(** A string literal of the source, as code units. *)
Definition lit (s : string) : js_string :=
  map N_of_ascii (list_ascii_of_string s).

(** [s.length] *)
Definition len (s : js_string) : Z := Z.of_nat (length s).

(** [s[k]]: [None] stands for [undefined], the value of a read outside
    [0 .. s.length - 1]. *)
Definition char_at (s : js_string) (k : Z) : option code_unit :=
  if k <? 0 then None else nth_error s (Z.to_nat k).

(** [x === c] for a value [x] read from a string and a one-character
    literal [c]; [undefined] is equal to no character. *)
Definition is_char (x : option code_unit) (c : code_unit) : bool :=
  match x with
  | Some u => N.eqb u c
  | None => false
  end.

(** ** Completions *)

Inductive exn : Type := RangeError.

(** An evaluation returns, throws, or (in the model only) runs out of the
    fuel that bounds its loops. *)
Inductive completion (A : Type) : Type :=
| Normal (a : A)
| Throw (e : exn)
| OutOfFuel.

Arguments Normal {A} a.
Arguments Throw {A} e.
Arguments OutOfFuel {A}.

Definition bind {A B : Type} (c : completion A) (k : A -> completion B)
  : completion B :=
  match c with
  | Normal a => k a
  | Throw e => Throw e
  | OutOfFuel => OutOfFuel
  end.

Notation "x <- c ;; k" := (bind c (fun x => k))
  (at level 61, c at next level, right associativity).

(** [s.repeat(count)] for an integer [count] whose result the engine can
    hold; [repeat_number] below is [repeat] on any Number. *)
Definition str_repeat (s : js_string) (count : Z) : completion js_string :=
  if count <? 0 then Throw RangeError
  else Normal (concat (repeat s (Z.to_nat count))).

(** The literal ['  ']. *)
Definition two_spaces : js_string := [space; space].

(** ** The loop of [formatAST] *)

(** The variables the loop updates. *)
Record state : Type := { i : Z; depth : Z; result : js_string }.

(** [while (i < ast.length && ast[i] === ' ') i++;] returns the final [i]. *)
Fixpoint while_spaces (fuel : nat) (ast : js_string) (k : Z) : completion Z :=
  if (k <? len ast) && is_char (char_at ast k) space then
    match fuel with
    | O => OutOfFuel
    | S fuel' => while_spaces fuel' ast (k + 1)
    end
  else Normal k.

(** One iteration of the [for] loop: its body, then its update [i++]. *)
Definition for_body (ast : js_string) (st : state) : completion state :=
  let char := char_at ast (i st) in
  if is_char char lparen then
    ind <- str_repeat two_spaces (depth st + 1) ;;
    Normal {| i := i st + 1;
              depth := depth st + 1;
              result := result st ++ [lparen] ++ [newline] ++ ind |}
  else if is_char char rparen then
    let depth' := depth st - 1 in
    ind <- str_repeat two_spaces depth' ;;
    Normal {| i := i st + 1;
              depth := depth';
              result := result st ++ [newline] ++ ind ++ [rparen] |}
  else if is_char char space
          && negb (is_char (char_at ast (i st - 1)) newline) then
    ind <- str_repeat two_spaces (depth st) ;;
    i' <- while_spaces (length ast) ast (i st) ;;
    Normal {| i := (i' - 1) + 1;
              depth := depth st;
              result := result st ++ [newline] ++ ind |}
  else
    Normal {| i := i st + 1;
              depth := depth st;
              result := result st ++
                        match char with
                        | Some c => [c]
                        | None => lit "undefined"
                        end |}.

(** [for (let i = 0; i < ast.length; i++) { ... }] from a given state. *)
Fixpoint for_loop (fuel : nat) (ast : js_string) (st : state)
  : completion state :=
  if i st <? len ast then
    match fuel with
    | O => OutOfFuel
    | S fuel' => st' <- for_body ast st ;; for_loop fuel' ast st'
    end
  else Normal st.

Definition initial : state := {| i := 0; depth := 0; result := [] |}.

(** The loop of [formatAST] run on [ast], with the state it ends in. *)
Definition run (ast : js_string) : completion state :=
  for_loop (length ast) ast initial.

(** [function formatAST(ast, indent = 0)]; a call with one argument is
    [formatAST ast 0]. *)
Definition formatAST (ast : js_string) (indent : Z) : completion js_string :=
  spaces <- str_repeat two_spaces indent ;;
  st <- run ast ;;
  Normal (result st).

(** ** The second argument as a Number

    A caller may give any Number for [indent].  A finite Number is a
    rational; [repeat] takes its count through [ToIntegerOrInfinity],
    which maps [NaN] to 0 and truncates a finite Number toward zero, then
    throws a [RangeError] when the count is negative or infinite, and
    when the string asked for is longer than the longest string of the
    engine, [max_length]. *)

Inductive js_number : Type :=
| Finite (q : Q)
| PlusInfinity
| MinusInfinity
| NaN.

Inductive integer_or_infinity : Type :=
| Int (k : Z)
| PosInf
| NegInf.

(** The integer part of a rational: rounding toward zero. *)
Definition truncate (q : Q) : Z := Z.quot (Qnum q) (Z.pos (Qden q)).

Definition ToIntegerOrInfinity (n : js_number) : integer_or_infinity :=
  match n with
  | NaN => Int 0
  | PlusInfinity => PosInf
  | MinusInfinity => NegInf
  | Finite q => Int (truncate q)
  end.

(** [s.repeat(count)] for a Number [count]. *)
Definition repeat_number (max_length : Z) (s : js_string) (count : js_number)
  : completion js_string :=
  match ToIntegerOrInfinity count with
  | Int k =>
      if k <? 0 then Throw RangeError
      else if max_length <? len s * k then Throw RangeError
      else Normal (concat (repeat s (Z.to_nat k)))
  | PosInf | NegInf => Throw RangeError
  end.

(** The Numbers that ['  '.repeat] takes as a count: NaN, and the finite
    Numbers above -1 whose integer part asks for no more characters than
    the engine can hold. *)
Definition accepted (max_length : Z) (n : js_number) : Prop :=
  match n with
  | Finite q => (-1 < q)%Q /\ 2 * truncate q <= max_length
  | NaN => True
  | PlusInfinity | MinusInfinity => False
  end.

(** [formatAST(ast, indent)] for a Number [indent]. *)
Definition formatAST_number (max_length : Z) (ast : js_string)
           (indent : js_number) : completion js_string :=
  spaces <- repeat_number max_length two_spaces indent ;;
  st <- run ast ;;
  Normal (result st).

(** ** The same loop, recording where each output character comes from

    The formatter builds [result] from characters it copies from [ast]
    and from line breaks and indentation it adds.  The traced loop is
    [for_loop] with each character of [result] labelled by its origin;
    control flow and text are unchanged ([for_loop_erase] below). *)

Inductive origin : Type := Copied | Inserted.

Definition traced := list (origin * code_unit).

Definition copied (s : js_string) : traced := map (pair Copied) s.
Definition inserted (s : js_string) : traced := map (pair Inserted) s.

(** The text of a traced string. *)
Definition erase (t : traced) : js_string := map snd t.

(** What is left of a traced string once every inserted character is
    deleted. *)
Definition delete_inserted (t : traced) : js_string :=
  erase (filter (fun x => match fst x with Copied => true | Inserted => false end) t).

Record state_t : Type := { i_t : Z; depth_t : Z; result_t : traced }.

Definition for_body_t (ast : js_string) (st : state_t) : completion state_t :=
  let char := char_at ast (i_t st) in
  if is_char char lparen then
    ind <- str_repeat two_spaces (depth_t st + 1) ;;
    Normal {| i_t := i_t st + 1;
              depth_t := depth_t st + 1;
              result_t := result_t st ++ copied [lparen]
                          ++ inserted [newline] ++ inserted ind |}
  else if is_char char rparen then
    let depth' := depth_t st - 1 in
    ind <- str_repeat two_spaces depth' ;;
    Normal {| i_t := i_t st + 1;
              depth_t := depth';
              result_t := result_t st ++ inserted [newline]
                          ++ inserted ind ++ copied [rparen] |}
  else if is_char char space
          && negb (is_char (char_at ast (i_t st - 1)) newline) then
    ind <- str_repeat two_spaces (depth_t st) ;;
    i' <- while_spaces (length ast) ast (i_t st) ;;
    Normal {| i_t := (i' - 1) + 1;
              depth_t := depth_t st;
              result_t := result_t st ++ inserted [newline] ++ inserted ind |}
  else
    Normal {| i_t := i_t st + 1;
              depth_t := depth_t st;
              result_t := result_t st ++
                          copied match char with
                                 | Some c => [c]
                                 | None => lit "undefined"
                                 end |}.

Fixpoint for_loop_t (fuel : nat) (ast : js_string) (st : state_t)
  : completion state_t :=
  if i_t st <? len ast then
    match fuel with
    | O => OutOfFuel
    | S fuel' => st' <- for_body_t ast st ;; for_loop_t fuel' ast st'
    end
  else Normal st.

Definition initial_t : state_t := {| i_t := 0; depth_t := 0; result_t := [] |}.

Definition run_t (ast : js_string) : completion state_t :=
  for_loop_t (length ast) ast initial_t.

Definition formatAST_t (ast : js_string) (indent : Z) : completion traced :=
  spaces <- str_repeat two_spaces indent ;;
  st <- run_t ast ;;
  Normal (result_t st).

(** The untraced state under a traced one. *)
Definition erase_state (st : state_t) : state :=
  {| i := i_t st; depth := depth_t st; result := erase (result_t st) |}.

(** The states the traced loop is in at the head of an iteration. *)
Inductive reachable (ast : js_string) : state_t -> Prop :=
| reach_initial : reachable ast initial_t
| reach_step st st' :
    reachable ast st ->
    i_t st < len ast ->
    for_body_t ast st = Normal st' ->
    reachable ast st'.

(** ** A structural account of the loop

    [emit] reads the input as a list, left to right.  What the loop learns
    from [ast[i - 1]] and from its inner [while] is kept as a [before]
    mark: the next character follows a line break of the input, lies in a
    run of spaces being skipped, or neither.  [for_loop_t_emit] below
    shows that the loop computes [emit]. *)

Inductive before : Type := AfterNewline | InRun | AfterOther.

Section Emit.

Context {T : Type} (cp ins : code_unit -> T).

Fixpoint emit (b : before) (d : Z) (s : js_string)
  : completion (Z * list T) :=
  match s with
  | [] => Normal (d, [])
  | u :: s' =>
      if N.eqb u lparen then
        ind <- str_repeat two_spaces (d + 1) ;;
        r <- emit AfterOther (d + 1) s' ;;
        Normal (fst r, [cp lparen] ++ [ins newline] ++ map ins ind ++ snd r)
      else if N.eqb u rparen then
        ind <- str_repeat two_spaces (d - 1) ;;
        r <- emit AfterOther (d - 1) s' ;;
        Normal (fst r, [ins newline] ++ map ins ind ++ [cp rparen] ++ snd r)
      else if N.eqb u space then
        match b with
        | InRun => emit InRun d s'
        | AfterNewline =>
            r <- emit AfterOther d s' ;;
            Normal (fst r, [cp space] ++ snd r)
        | AfterOther =>
            ind <- str_repeat two_spaces d ;;
            r <- emit InRun d s' ;;
            Normal (fst r, [ins newline] ++ map ins ind ++ snd r)
        end
      else
        r <- emit (if N.eqb u newline then AfterNewline else AfterOther) d s' ;;
        Normal (fst r, [cp u] ++ snd r)
  end.

End Emit.

(** The number of spaces a string starts with. *)
Fixpoint lead (s : js_string) : nat :=
  match s with
  | u :: s' => if N.eqb u space then S (lead s') else O
  | [] => O
  end.

(** The mark of position [n] of [ast], as the loop reads it. *)
Definition before_at (ast : js_string) (n : nat) : before :=
  if is_char (char_at ast (Z.of_nat n - 1)) newline then AfterNewline
  else AfterOther.

(** ** Vocabulary of the specification *)

(** *** Nesting depth and balance *)

(** The number of occurrences of [c] in [s]. *)
Definition count (c : code_unit) (s : js_string) : nat :=
  length (filter (fun u => N.eqb u c) s).

(** Nesting depth at the end of [s]: the nodes opened and not yet closed. *)
Definition nesting (s : js_string) : Z :=
  Z.of_nat (count lparen s) - Z.of_nat (count rparen s).

(** Reading [s] from depth [d], the depth never goes below 0. *)
Fixpoint nonneg_from (d : Z) (s : js_string) : bool :=
  match s with
  | [] => true
  | u :: s' =>
      let d' := if N.eqb u lparen then d + 1
                else if N.eqb u rparen then d - 1
                else d in
      (0 <=? d') && nonneg_from d' s'
  end.

(** No prefix of [s] closes more nodes than it opens
    ([never_negative_iff] below). *)
Definition never_negative (s : js_string) : bool := nonneg_from 0 s.

(** Balanced parentheses: the depth never goes negative and ends at 0. *)
Definition balanced (s : js_string) : bool :=
  never_negative s && (nesting s =? 0).

(** *** Indentation and lines *)

(** The indentation prefix of depth [d]: two spaces, [d] times. *)
Definition indentation (d : nat) : js_string := concat (repeat two_spaces d).

(** The lines of a text: the pieces between its line breaks. *)
Fixpoint lines (s : js_string) : list js_string :=
  match s with
  | [] => [[]]
  | u :: s' =>
      if N.eqb u newline then [] :: lines s'
      else match lines s' with
           | l :: ls => (u :: l) :: ls
           | [] => [[u]]
           end
  end.

(** The text whose lines are [ls]. *)
Fixpoint unlines (ls : list js_string) : js_string :=
  match ls with
  | [] => []
  | [l] => l
  | l :: ls' => l ++ [newline] ++ unlines ls'
  end.

Definition is_paren (u : code_unit) : bool :=
  N.eqb u lparen || N.eqb u rparen.

(** The lines of a text on which a parenthesis occurs. *)
Definition paren_lines (out : js_string) : list js_string :=
  filter (existsb is_paren) (lines out).

(** One line for each parenthesis of [s], in the order of [s]: the
    indentation prefix of the depth the parenthesis sits at (an opening
    one at the depth it is met at, a closing one at the depth of the
    parenthesis it closes), then the parenthesis alone. *)
Fixpoint own_lines (d : nat) (s : js_string) : list js_string :=
  match s with
  | [] => []
  | u :: s' =>
      if N.eqb u lparen then
        (indentation d ++ [lparen]) :: own_lines (S d) s'
      else if N.eqb u rparen then
        (indentation (pred d) ++ [rparen]) :: own_lines (pred d) s'
      else own_lines d s'
  end.

(** *** Serialized trees (section 3 of the specification)

    A node is written [(], its items separated by single spaces, [)]; an
    item is a node or a token (a node type, a field name): a non-empty
    run of characters other than parentheses, space and line break. *)

Unset Elimination Schemes.
Inductive tree : Type :=
| Token (label : js_string)
| Node (items : list tree).
Set Elimination Schemes.

Fixpoint join (ss : list js_string) : js_string :=
  match ss with
  | [] => []
  | [x] => x
  | x :: ss' => x ++ [space] ++ join ss'
  end.

Fixpoint serialize (t : tree) : js_string :=
  match t with
  | Token label => label
  | Node items => [lparen] ++ join (map serialize items) ++ [rparen]
  end.

Definition label_char (u : code_unit) : bool :=
  negb (N.eqb u lparen || N.eqb u rparen || N.eqb u space || N.eqb u newline).

Fixpoint well_formed (t : tree) : bool :=
  match t with
  | Token label =>
      match label with [] => false | _ => forallb label_char label end
  | Node items => forallb well_formed items
  end.

(** Where the output stands when the next character is read: on a
    fresh line that holds the indentation of the current depth (after an
    opening parenthesis or at the start, [AtIndent]; after the space
    rule, [AtBreak]), inside a token, or just behind a closing
    parenthesis. *)
Inductive place : Type := AtIndent | AtBreak | InToken | Closed.

Definition fresh (p : place) : bool :=
  match p with AtIndent | AtBreak => true | _ => false end.

Definition closed (p : place) : bool :=
  match p with Closed => true | _ => false end.

Definition mark (p : place) : before :=
  match p with AtBreak => InRun | _ => AfterOther end.

(** What the serialization of a tree guarantees locally: an opening
    parenthesis starts the text or follows an opening parenthesis or a
    space; a closing parenthesis is never followed by a token character
    or an opening parenthesis, and never takes the depth [d] below 0;
    there is no line break. *)
Fixpoint tidy (p : place) (d : nat) (s : js_string) : bool :=
  match s with
  | [] => true
  | u :: s' =>
      if N.eqb u lparen then fresh p && tidy AtIndent (S d) s'
      else if N.eqb u rparen then (1 <=? d)%nat && tidy Closed (pred d) s'
      else if N.eqb u space then tidy AtBreak d s'
      else if N.eqb u newline then false
      else negb (closed p) && tidy InToken d s'
  end.

(** The place behind the serialization of a tree. *)
Definition behind (t : tree) : place :=
  match t with Token _ => InToken | Node _ => Closed end.

(** *** Whitespace the formatter replaces *)

(** [s] without the spaces the space rule consumes: every space that is
    not immediately preceded by a line break.  [after_nl] tells whether
    the character before [s] is a line break. *)
Fixpoint without_spaces (after_nl : bool) (s : js_string) : js_string :=
  match s with
  | [] => []
  | u :: s' =>
      if N.eqb u space && negb after_nl then without_spaces false s'
      else u :: without_spaces (N.eqb u newline) s'
  end.

(** *** The space rule

    [st'] is [st] after the space rule: a line break and the indentation
    prefix of the current depth are appended to the result, the depth is
    unchanged, and [i] has moved from the space it was at past every
    space that follows it, to the first character that is not a space (or
    to the end of the input). *)
Definition space_rule (ast : js_string) (st st' : state_t) : Prop :=
  result_t st'
  = result_t st ++ inserted ([newline] ++ indentation (Z.to_nat (depth_t st)))
  /\ depth_t st' = depth_t st
  /\ i_t st < i_t st'
  /\ (forall k, i_t st <= k < i_t st' -> char_at ast k = Some space)
  /\ char_at ast (i_t st') <> Some space.

(** The last character of the result is a line break that the formatter
    inserted. *)
Definition ends_with_inserted_newline (t : traced) : bool :=
  match last (map Some t) None with
  | Some (Inserted, u) => N.eqb u newline
  | _ => false
  end.

(** The state the loop ends in when [emit] returns [r] for what was left
    to read in state [st]. *)
Definition finish (st : state_t) (ast : js_string) (r : Z * traced) : state_t :=
  {| i_t := len ast; depth_t := fst r; result_t := result_t st ++ snd r |}.

(** No line break occurs in [s]. *)
Definition no_newline (s : js_string) : bool :=
  forallb (fun u => negb (N.eqb u newline)) s.

(** *** Whitespace *)

(** Space, line break, tab, carriage return, vertical tab, form feed. *)
Definition ascii_whitespace (u : code_unit) : bool :=
  N.eqb u space || N.eqb u newline
  || N.eqb u 9%N || N.eqb u 13%N || N.eqb u 11%N || N.eqb u 12%N.

(** ** The rendering of a tree, and inputs that differ in their spaces *)

(** A line break followed by the indentation prefix of depth [d]. *)
Definition line_break (d : nat) : js_string := [newline] ++ indentation d.

Fixpoint join_with (sep : js_string) (ss : list js_string) : js_string :=
  match ss with
  | [] => []
  | [x] => x
  | x :: ss' => x ++ sep ++ join_with sep ss'
  end.

(** The indented rendering of a tree at depth [d]: a token as it is; a
    node as its opening parenthesis, each item on a line of its own one
    level deeper, and its closing parenthesis on a line of its own at the
    depth of the node. *)
Fixpoint render (d : nat) (t : tree) : js_string :=
  match t with
  | Token label => label
  | Node items =>
      [lparen] ++ line_break (S d)
      ++ join_with (line_break (S d)) (map (render (S d)) items)
      ++ line_break d ++ [rparen]
  end.

(** [s] with every run of spaces shortened to one space; [in_run] tells
    whether the character before [s] is a space. *)
Fixpoint squeeze_from (in_run : bool) (s : js_string) : js_string :=
  match s with
  | [] => []
  | u :: s' =>
      if N.eqb u space then
        if in_run then squeeze_from true s' else space :: squeeze_from true s'
      else u :: squeeze_from false s'
  end.

Definition squeeze (s : js_string) : js_string := squeeze_from false s.

(** ** The script around [formatAST]

    The script reads its argument, checks the file, makes the output
    directory, and in a [try] block parses the file, formats the tree and
    writes the report.  What it asks of Node, of the file system and of
    the parser is an [env]; what it does to them is a list of [event]s,
    in order. *)

Record env : Type := {
  (* [process.argv[2]]; [None] when there is no argument *)
  argv2 : option js_string;
  (* [fs.existsSync] *)
  existsSync : js_string -> bool;
  (* [path.join(__dirname, 'parse_results')] *)
  outputDir : js_string;
  (* [fs.mkdirSync(dir, { recursive: true })]; [Some m]: it throws, with
     message [m] *)
  mkdirSync : js_string -> option js_string;
  (* [new Parser()] and [parser.setLanguage(JavaScript)] *)
  newParser : option js_string;
  (* [fs.readFileSync(file, 'utf8')]: the contents, or the message of
     the fault *)
  readFileSync : js_string -> js_string + js_string;
  (* [parser.parse(code)] and the [toString()] of its root node *)
  parse : js_string -> js_string + js_string;
  path_extname : js_string -> js_string;
  path_basename : js_string -> js_string -> js_string;
  path_join : js_string -> js_string -> js_string;
  (* [new Date().toISOString()] *)
  now : js_string;
  (* [fs.writeFileSync(file, data, 'utf8')] *)
  writeFileSync : js_string -> js_string -> option js_string;
  (* [error.message] of a fault of [formatAST] *)
  message : exn -> js_string
}.

Inductive event : Type :=
| ConsoleError (text : js_string)
| ConsoleLog (text : js_string)
| MkdirSync (dir : js_string)
| WriteFileSync (file data : js_string).

(** How the [try] block ends: at its end, in its [catch], or (in the
    model only) without fuel. *)
Inductive outcome : Type :=
| Done
| Caught (text : js_string)
| Fuel.

(** How the script ends: at its end, by [process.exit(code)], by a
    fault that nothing catches, or (in the model only) without fuel. *)
Inductive ending : Type :=
| Returned
| Exit (code : Z)
| Uncaught (text : js_string)
| NoFuel.

(** The check mark of the two success lines, U+2713. *)
Definition check_mark : js_string := [10003%N].

(** The report: [`File: ${filePath}\nParsed at: ${...}\n\n${formattedAST}`]. *)
Definition report (filePath timestamp formattedAST : js_string) : js_string :=
  lit "File: " ++ filePath ++ [newline]
  ++ lit "Parsed at: " ++ timestamp ++ [newline; newline]
  ++ formattedAST.

(** The name of the report of [filePath]. *)
Definition output_file (e : env) (filePath : js_string) : js_string :=
  let fileName := path_basename e filePath (path_extname e filePath) in
  path_join e (outputDir e) (fileName ++ lit ".txt").

(** The body of the [try] block. *)
Definition try_body (e : env) (filePath : js_string) : list event * outcome :=
  match newParser e with
  | Some m => ([], Caught m)
  | None =>
      match readFileSync e filePath with
      | inr m => ([], Caught m)
      | inl code =>
          match parse e code with
          | inr m => ([], Caught m)
          | inl astString =>
              let outputFile := output_file e filePath in
              match formatAST astString 0 with
              | Throw ex => ([], Caught (message e ex))
              | OutOfFuel => ([], Fuel)
              | Normal formattedAST =>
                  let result := report filePath (now e) formattedAST in
                  match writeFileSync e outputFile result with
                  | Some m => ([WriteFileSync outputFile result], Caught m)
                  | None =>
                      ([WriteFileSync outputFile result;
                        ConsoleLog (check_mark ++ lit " Parsed: " ++ filePath);
                        ConsoleLog (check_mark ++ lit " Saved to: "
                                    ++ outputFile)],
                       Done)
                  end
              end
          end
      end
  end.

(** The script, from its first line to its last. *)
Definition script (e : env) : list event * ending :=
  match argv2 e with
  | None | Some [] =>
      ([ConsoleError (lit "Usage: npm run parse -- <path-to-file>")], Exit 1)
  | Some filePath =>
      if negb (existsSync e filePath) then
        ([ConsoleError (lit "Error: File not found: " ++ filePath)], Exit 1)
      else
        let made :=
          if negb (existsSync e (outputDir e))
          then ([MkdirSync (outputDir e)], mkdirSync e (outputDir e))
          else ([], None) in
        match snd made with
        | Some m => (fst made, Uncaught m)
        | None =>
            match try_body e filePath with
            | (events, Done) => (fst made ++ events, Returned)
            | (events, Caught m) =>
                (fst made ++ events
                 ++ [ConsoleError (lit "Parse error:" ++ [space] ++ m)],
                 Exit 1)
            | (events, Fuel) => (fst made ++ events, NoFuel)
            end
        end
  end.

(** The calls the script makes that change the file system. *)
Definition changes_files (ev : event) : bool :=
  match ev with
  | MkdirSync _ | WriteFileSync _ _ => true
  | _ => false
  end.

Definition is_write (ev : event) : bool :=
  match ev with
  | WriteFileSync _ _ => true
  | _ => false
  end.

(** An environment in which everything succeeds: the files whose name
    starts with [a] are there, the output directory is not, the parser
    returns the tree [(program (x))]. *)
Definition fair_env : env :=
  {| argv2 := Some (lit "a.js");
     existsSync := fun file => match file with
                               | u :: _ => N.eqb u 97%N
                               | [] => false
                               end;
     outputDir := lit "parse_results";
     mkdirSync := fun _ => None;
     newParser := None;
     readFileSync := fun _ => inl (lit "x;");
     parse := fun _ => inl (lit "(program (x))");
     path_extname := fun _ => lit ".js";
     path_basename := fun _ _ => lit "a";
     path_join := fun dir file => dir ++ lit "/" ++ file;
     now := lit "2026-01-01T00:00:00.000Z";
     writeFileSync := fun _ _ => None;
     message := fun _ => lit "Invalid count value: -1" |}.

(** The same, with a parser whose tree closes a node it never opened. *)
Definition unbalanced_env : env :=
  {| argv2 := argv2 fair_env;
     existsSync := existsSync fair_env;
     outputDir := outputDir fair_env;
     mkdirSync := mkdirSync fair_env;
     newParser := newParser fair_env;
     readFileSync := readFileSync fair_env;
     parse := fun _ => inl (lit "(program))");
     path_extname := path_extname fair_env;
     path_basename := path_basename fair_env;
     path_join := path_join fair_env;
     now := now fair_env;
     writeFileSync := writeFileSync fair_env;
     message := message fair_env |}.

(** ** The sample file: functions on functions

    The functions of the sample file that the script is run on.  The
    values they are applied to are of a type [A]; the functions they are
    given return, and touch nothing else. *)

Section Functions.

Context {A : Type}.

(** [(...fns) => (value) => fns.reduceRight((acc, fn) => fn(acc), value)] *)
Definition compose (fns : list (A -> A)) (value : A) : A :=
  fold_right (fun fn acc => fn acc) value fns.

(** [(...fns) => (value) => fns.reduce((acc, fn) => fn(acc), value)] *)
Definition pipe (fns : list (A -> A)) (value : A) : A :=
  fold_left (fun acc fn => fn acc) fns value.

End Functions.

Section Curry.

Context {A R : Type}.

(** What a call of the curried function returns: the value of [fn], or
    [$curry] bound to the arguments received so far. *)
Inductive curried : Type :=
| Result (r : R)
| Bound (args : list A).

(** [fn] is called with a list of arguments; [arity] is [fn.length]. *)
Context (fn : list A -> R) (arity : nat).

(** [$curry(...args)], where [bound] are the arguments [$curry] is bound
    to and [more] those of the call. *)
Definition call_curry (bound more : list A) : curried :=
  let args := bound ++ more in
  if (length args <? arity)%nat then Bound args else Result (fn args).

(** [curry(fn)]: [$curry], bound to nothing. *)
Definition curry : curried := Bound [].

(** A call of a value that [$curry] has returned; [None] when the value
    is a result of [fn], of which the model knows nothing. *)
Definition call (c : curried) (more : list A) : option curried :=
  match c with
  | Bound bound => Some (call_curry bound more)
  | Result _ => None
  end.

(** Calls in a row: [c(...g1)(...g2)...]. *)
Fixpoint calls (c : curried) (groups : list (list A)) : option curried :=
  match groups with
  | [] => Some c
  | g :: groups' =>
      match call c g with
      | Some c' => calls c' groups'
      | None => None
      end
  end.

End Curry.

Section Memoize.

Context {Args R : Type}.

(** [JSON.stringify(args)], [None] when it throws; [fn(...args)], [None]
    when it throws.  [fn] returns the same for the same arguments and
    does not call the memoized function itself. *)
Context (stringify : Args -> option js_string) (fn : Args -> option R).

Definition key_eqb (a b : js_string) : bool :=
  if list_eq_dec N.eq_dec a b then true else false.

(** [cache.get(key)], [None] when [cache.has(key)] is false. *)
Fixpoint map_get (cache : list (js_string * R)) (key : js_string) : option R :=
  match cache with
  | [] => None
  | (k, r) :: cache' => if key_eqb k key then Some r else map_get cache' key
  end.

(** [cache.set(key, result)] *)
Fixpoint map_set (cache : list (js_string * R)) (key : js_string) (result : R)
  : list (js_string * R) :=
  match cache with
  | [] => [(key, result)]
  | (k, r) :: cache' =>
      if key_eqb k key then (k, result) :: cache'
      else (k, r) :: map_set cache' key result
  end.

(** The [cache] of one memoized function and, for the record, the
    arguments of the calls of [fn] made so far. *)
Record memo : Type := { cache : list (js_string * R); fn_calls : list Args }.

Definition new_memo : memo := {| cache := []; fn_calls := [] |}.

(** One call of the function [memoize(fn)] returns: its value ([None]
    when it throws) and the state it leaves. *)
Definition memoized (m : memo) (args : Args) : option R * memo :=
  match stringify args with
  | None => (None, m)
  | Some key =>
      match map_get (cache m) key with
      | Some r => (Some r, m)
      | None =>
          match fn args with
          | None => (None, {| cache := cache m;
                              fn_calls := fn_calls m ++ [args] |})
          | Some result =>
              (Some result, {| cache := map_set (cache m) key result;
                               fn_calls := fn_calls m ++ [args] |})
          end
      end
  end.

(** The state after a series of calls. *)
Definition after_calls (m : memo) (history : list Args) : memo :=
  fold_left (fun m args => snd (memoized m args)) history m.

(** Every entry of the cache is the value of [fn] on arguments with
    that key. *)
Definition cache_sound (m : memo) : Prop :=
  forall k r, map_get (cache m) k = Some r ->
              exists a, stringify a = Some k /\ fn a = Some r.

End Memoize.

(** ** The sample file: the template tag [html] *)

(** A value put in a template: a string; [undefined] or [null]; or any
    other value, given by the text that [+] makes of it. *)
Inductive js_value : Type :=
| Str (s : js_string)
| Nullish
| Other (text : js_string).

Definition ampersand : code_unit := 38%N.
Definition less : code_unit := 60%N.
Definition greater : code_unit := 62%N.

(** [s.replace(/c/g, by)] for a single character [c] and a replacement
    [by] without [$]. *)
Definition replace_all (c : code_unit) (by_ : js_string) (s : js_string)
  : js_string :=
  flat_map (fun u => if N.eqb u c then by_ else [u]) s.

(** [value.replace(/&/g, '&amp;').replace(/</g, '&lt;').replace(/>/g, '&gt;')] *)
Definition escape (value : js_string) : js_string :=
  replace_all greater (lit "&gt;")
    (replace_all less (lit "&lt;")
       (replace_all ampersand (lit "&amp;") value)).

(** [(escaped ?? '')], as [+] appends it. *)
Definition interpolated (value : js_value) : js_string :=
  match value with
  | Str s => escape s
  | Nullish => []
  | Other text => text
  end.

(** [strings.reduce((result, str, i) => ..., '')], from index [i] and
    accumulator [result]; [values[i]] is [undefined] past the end. *)
Fixpoint reduce_html (strings : list js_string) (values : list js_value)
         (i : nat) (result : js_string) : js_string :=
  match strings with
  | [] => result
  | str :: strings' =>
      reduce_html strings' values (S i)
        (result ++ str ++ interpolated (nth i values Nullish))
  end.

Definition html (strings : list js_string) (values : list js_value)
  : js_string :=
  reduce_html strings values 0 [].

(** What [escape] makes of one character. *)
Definition escape_char (u : code_unit) : js_string :=
  if N.eqb u ampersand then lit "&amp;"
  else if N.eqb u less then lit "&lt;"
  else if N.eqb u greater then lit "&gt;"
  else [u].

Definition is_other (value : js_value) : bool :=
  match value with Other _ => true | _ => false end.

(** ** The sample file: the class [EventEmitter]

    An emitter holds, in a [Map], one array of handlers for each event
    name it has seen.  The arrays are changed in place, by [on] and by
    [off], also while [emit] walks one of them: in the model every read
    of the array of a name is a read of the map at that moment.

    A handler is a function object, compared by identity.  The model
    knows the functions the user registers by what identifies them, a
    value of [F]; calling one adds an entry to a log of calls, and does
    nothing to the emitter.  The wrappers that [once] makes are new
    functions each time; they are told apart by a number. *)

Module EventEmitter.

Section Model.

Context {F Args : Type} (F_eq_dec : forall a b : F, {a = b} + {a <> b}).

Inductive handler : Type :=
| User (f : F)
| Wrapped (id : nat) (f : F).

(** [a === b] on handlers. *)
Definition same (a b : handler) : bool :=
  match a, b with
  | User f, User g => if F_eq_dec f g then true else false
  | Wrapped i _, Wrapped j _ => Nat.eqb i j
  | _, _ => false
  end.

Record emitter : Type := {
  events : list (js_string * list handler);
  (* the number of the next wrapper *)
  next_id : nat;
  (* the calls of the user's functions, in order *)
  log : list (F * Args)
}.

(** [new EventEmitter()] *)
Definition create : emitter := {| events := []; next_id := 0; log := [] |}.

(** [handlers.indexOf(handler)], [None] for -1. *)
Fixpoint indexOf (h : handler) (handlers : list handler) : option nat :=
  match handlers with
  | [] => None
  | x :: handlers' =>
      if same x h then Some O else option_map S (indexOf h handlers')
  end.

(** [handlers.splice(index, 1)]: what is left. *)
Fixpoint splice1 (index : nat) (handlers : list handler) : list handler :=
  match handlers, index with
  | [], _ => []
  | _ :: handlers', O => handlers'
  | x :: handlers', S index' => x :: splice1 index' handlers'
  end.

Definition on (eventName : js_string) (h : handler) (st : emitter) : emitter :=
  let events1 :=
    match map_get (events st) eventName with
    | None => map_set (events st) eventName []
    | Some _ => events st
    end in
  match map_get events1 eventName with
  | Some handlers =>
      {| events := map_set events1 eventName (handlers ++ [h]);
         next_id := next_id st;
         log := log st |}
  | None => st (* not reached: the key has just been set *)
  end.

Definition once (eventName : js_string) (f : F) (st : emitter) : emitter :=
  let wrappedHandler := Wrapped (next_id st) f in
  on eventName wrappedHandler
    {| events := events st; next_id := S (next_id st); log := log st |}.

Definition off (eventName : js_string) (h : handler) (st : emitter) : emitter :=
  match map_get (events st) eventName with
  | None => st
  | Some handlers =>
      match indexOf h handlers with
      | None => st
      | Some index =>
          {| events := map_set (events st) eventName (splice1 index handlers);
             next_id := next_id st;
             log := log st |}
      end
  end.

(** [handler(...args)], for a handler found in the array of [eventName]. *)
Definition invoke (h : handler) (eventName : js_string) (args : Args)
           (st : emitter) : emitter :=
  let called f := {| events := events st; next_id := next_id st;
                     log := log st ++ [(f, args)] |} in
  match h with
  | User f => called f
  | Wrapped id f => off eventName (Wrapped id f) (called f)
  end.

(** [for (const handler of this.#events.get(eventName)) handler(...args)]:
    the iterator of the array reads its length and the element at
    [index] at each step.  [None]: out of fuel. *)
Fixpoint emit_loop (fuel : nat) (eventName : js_string) (args : Args)
         (index : nat) (st : emitter) : option emitter :=
  match map_get (events st) eventName with
  | None => Some st
  | Some handlers =>
      match nth_error handlers index with
      | None => Some st
      | Some h =>
          match fuel with
          | O => None
          | S fuel' =>
              emit_loop fuel' eventName args (S index)
                (invoke h eventName args st)
          end
      end
  end.

Definition emit (eventName : js_string) (args : Args) (st : emitter)
  : option emitter :=
  match map_get (events st) eventName with
  | None => Some st
  | Some handlers => emit_loop (length handlers) eventName args O st
  end.

(** The functions that one [emit] calls, for the handlers it finds: the
    handler that follows a wrapper of [once] is passed over. *)
Fixpoint called (handlers : list handler) : list F :=
  match handlers with
  | [] => []
  | User f :: handlers' => f :: called handlers'
  | Wrapped _ f :: [] => [f]
  | Wrapped _ f :: _ :: handlers' => f :: called handlers'
  end.

(** The handlers that one [emit] leaves: all but the wrappers it has
    called. *)
Fixpoint left_after (handlers : list handler) : list handler :=
  match handlers with
  | [] => []
  | User f :: handlers' => User f :: left_after handlers'
  | Wrapped _ _ :: [] => []
  | Wrapped _ _ :: x :: handlers' => x :: left_after handlers'
  end.

(** The numbers of the wrappers among the handlers. *)
Fixpoint wrapped_ids (handlers : list handler) : list nat :=
  match handlers with
  | [] => []
  | User _ :: handlers' => wrapped_ids handlers'
  | Wrapped id _ :: handlers' => id :: wrapped_ids handlers'
  end.

(** The emitters a user can make: [create], then [on], [once], [off]
    with functions of the user's own, and [emit]. *)
Inductive built : emitter -> Prop :=
| built_create : built create
| built_on name f st : built st -> built (on name (User f) st)
| built_once name f st : built st -> built (once name f st)
| built_off name f st : built st -> built (off name (User f) st)
| built_emit name args st st' :
    built st -> emit name args st = Some st' -> built st'.

(** In each array the wrappers are different ones, with numbers below
    the next. *)
Definition distinct_wrappers (st : emitter) : Prop :=
  forall name handlers,
    map_get (events st) name = Some handlers ->
    NoDup (wrapped_ids handlers)
    /\ Forall (fun id => (id < next_id st)%nat) (wrapped_ids handlers).

End Model.

End EventEmitter.

(** ** The sample file: the class factory [createModel]

    [schema] is given by its entries, in the order of [Object.entries];
    [data[key]] by a function of the key; the object under construction
    by its own properties, in the order they were added.

    The object is an instance of the class, whose prototypes define one
    setter, [__proto__] of [Object.prototype].  So [this[key] = value]
    adds or updates the own property [key], but for the key [__proto__]:
    that assignment calls the setter, adds no own property and may give
    the object another prototype (with setters of its own).  What the
    own properties of the object are from then on depends on the value
    and is not modelled: they are [None]. *)

Section CreateModel.

Context {V : Type}.

(** What [new Model(data)] ends in: the new object, given by its own
    properties; the new object after an assignment to [__proto__]; or
    [TypeError(`Invalid ${key}`)]. *)
Inductive constructed : Type :=
| Model (this : list (js_string * V))
| ProtoAssigned
| InvalidKey (key : js_string).

Definition proto_key : js_string := lit "__proto__".

(** [this[key] = value] *)
Definition assign (this : option (list (js_string * V))) (key : js_string)
           (value : V) : option (list (js_string * V)) :=
  if key_eqb key proto_key then None
  else match this with
       | Some own => Some (map_set own key value)
       | None => None
       end.

(** The loop of the constructor over the entries left, [this] being what
    has been assigned so far. *)
Fixpoint construct (entries : list (js_string * (V -> bool)))
         (data : js_string -> V) (this : option (list (js_string * V)))
  : constructed :=
  match entries with
  | [] => match this with
          | Some own => Model own
          | None => ProtoAssigned
          end
  | (key, validator) :: entries' =>
      if validator (data key)
      then construct entries' data (assign this key (data key))
      else InvalidKey key
  end.

(** [new (createModel(schema))(data)] *)
Definition createModel (schema : list (js_string * (V -> bool)))
           (data : js_string -> V) : constructed :=
  construct schema data (Some []).

End CreateModel.

(* ================================================================= *)
(** * Properties *)

(** ** Basic facts *)

Local Arguments skipn : simpl never.

Lemma len_nonneg (s : js_string) : 0 <= len s.
Proof. unfold len; lia. Qed.

Lemma char_at_of_nat (s : js_string) (n : nat) :
  char_at s (Z.of_nat n) = nth_error s n.
Proof.
  unfold char_at.
  destruct (Z.ltb_spec (Z.of_nat n) 0) as [H|H]; [lia|].
  now rewrite Nat2Z.id.
Qed.

Lemma skipn_uncons (s : js_string) (n : nat) :
  (n < length s)%nat ->
  exists u, nth_error s n = Some u /\ skipn n s = u :: skipn (S n) s.
Proof.
  revert n; induction s as [|a s IH]; intros n Hn; simpl in Hn; [lia|].
  destruct n as [|n].
  - exists a; split; reflexivity.
  - destruct (IH n) as [u [H1 H2]]; [lia|].
    exists u; split; [exact H1|exact H2].
Qed.

Lemma lead_le (s : js_string) : (lead s <= length s)%nat.
Proof.
  induction s as [|u s IH]; simpl; [lia|].
  destruct (N.eqb u space); simpl; lia.
Qed.

Lemma erase_app (a b : traced) : erase (a ++ b) = erase a ++ erase b.
Proof. apply map_app. Qed.

Lemma erase_copied (s : js_string) : erase (copied s) = s.
Proof.
  unfold erase, copied; rewrite map_map; simpl; apply map_id.
Qed.

Lemma erase_inserted (s : js_string) : erase (inserted s) = s.
Proof.
  unfold erase, inserted; rewrite map_map; simpl; apply map_id.
Qed.

(** ** The traced loop and the loop agree *)

Lemma for_body_erase (ast : js_string) (st : state_t) :
  for_body ast (erase_state st)
  = st' <- for_body_t ast st ;; Normal (erase_state st').
Proof.
  unfold for_body, for_body_t, erase_state; cbn [i depth result].
  destruct (is_char (char_at ast (i_t st)) lparen).
  { destruct (str_repeat two_spaces (depth_t st + 1));
      cbn [bind i_t depth_t result_t]; trivial.
    now rewrite !erase_app, !erase_copied, !erase_inserted. }
  destruct (is_char (char_at ast (i_t st)) rparen).
  { destruct (str_repeat two_spaces (depth_t st - 1));
      cbn [bind i_t depth_t result_t]; trivial.
    now rewrite !erase_app, !erase_copied, !erase_inserted. }
  destruct (is_char (char_at ast (i_t st)) space
            && negb (is_char (char_at ast (i_t st - 1)) newline)).
  { destruct (str_repeat two_spaces (depth_t st));
      cbn [bind i_t depth_t result_t]; trivial.
    destruct (while_spaces (length ast) ast (i_t st));
      cbn [bind i_t depth_t result_t]; trivial.
    now rewrite !erase_app, !erase_inserted. }
  cbn [bind i_t depth_t result_t].
  now rewrite erase_app, erase_copied.
Qed.

Lemma for_loop_erase (fuel : nat) (ast : js_string) (st : state_t) :
  for_loop fuel ast (erase_state st)
  = st' <- for_loop_t fuel ast st ;; Normal (erase_state st').
Proof.
  revert st; induction fuel as [|fuel IH]; intros st; simpl.
  - destruct (i_t st <? len ast); reflexivity.
  - destruct (i_t st <? len ast); [|reflexivity].
    rewrite for_body_erase.
    destruct (for_body_t ast st) as [st'| |]; simpl; trivial.
Qed.

Lemma formatAST_erase (ast : js_string) (indent : Z) :
  formatAST ast indent = t <- formatAST_t ast indent ;; Normal (erase t).
Proof.
  unfold formatAST, formatAST_t, run, run_t.
  destruct (str_repeat two_spaces indent); simpl; trivial.
  change initial with (erase_state initial_t).
  rewrite for_loop_erase.
  destruct (for_loop_t (length ast) ast initial_t); reflexivity.
Qed.

(** ** The loop computes [emit] *)

Lemma while_spaces_lead (fuel : nat) (ast : js_string) (n : nat) :
  (length ast - n <= fuel)%nat ->
  while_spaces fuel ast (Z.of_nat n)
  = Normal (Z.of_nat (n + lead (skipn n ast))).
Proof.
  revert n; induction fuel as [|fuel IH]; intros n Hf.
  - assert (Hn : (length ast <= n)%nat) by lia.
    rewrite (skipn_all2 _ Hn); simpl.
    destruct (Z.ltb_spec (Z.of_nat n) (len ast)) as [H|H];
      [unfold len in H; lia|].
    simpl. now rewrite Nat.add_0_r.
  - simpl.
    destruct (Z.ltb_spec (Z.of_nat n) (len ast)) as [H|H]; unfold len in H.
    + destruct (skipn_uncons ast n) as [u [Hu Hs]]; [lia|].
      rewrite char_at_of_nat, Hu, Hs; simpl.
      destruct (N.eqb u space); simpl.
      * replace (Z.of_nat n + 1) with (Z.of_nat (S n)) by lia.
        rewrite IH by lia. apply f_equal; lia.
      * now rewrite Nat.add_0_r.
    + rewrite skipn_all2 by lia. simpl. now rewrite Nat.add_0_r.
Qed.

Section EmitFacts.

Context {T : Type} (cp ins : code_unit -> T).

(** The mark matters only in front of a space. *)
Lemma emit_before_irrelevant (b b' : before) (d : Z) (s : js_string) :
  lead s = O -> emit cp ins b d s = emit cp ins b' d s.
Proof.
  destruct s as [|u s]; simpl; trivial.
  destruct (N.eqb u space) eqn:E; [discriminate|].
  reflexivity.
Qed.

(** Inside a run, the spaces that remain are dropped. *)
Lemma emit_InRun (b : before) (d : Z) (s : js_string) :
  emit cp ins InRun d s = emit cp ins b d (skipn (lead s) s).
Proof.
  induction s as [|u s IH]; simpl; trivial.
  destruct (N.eqb u space) eqn:E.
  - apply N.eqb_eq in E; subst u; simpl. exact IH.
  - change (skipn 0 (u :: s)) with (u :: s). simpl. rewrite E.
    reflexivity.
Qed.

End EmitFacts.

Lemma before_at_S (ast : js_string) (n : nat) (u : code_unit) :
  nth_error ast n = Some u ->
  before_at ast (S n) = if N.eqb u newline then AfterNewline else AfterOther.
Proof.
  intros Hu. unfold before_at.
  replace (Z.of_nat (S n) - 1) with (Z.of_nat n) by lia.
  now rewrite char_at_of_nat, Hu.
Qed.

Lemma for_loop_t_emit (fuel : nat) (ast : js_string) :
  forall (st : state_t) (n : nat),
    i_t st = Z.of_nat n ->
    (n <= length ast)%nat ->
    (length ast - n <= fuel)%nat ->
    for_loop_t fuel ast st
    = r <- emit (pair Copied) (pair Inserted)
             (before_at ast n) (depth_t st) (skipn n ast) ;;
      Normal (finish st ast r).
Proof.
  induction fuel as [|fuel IH]; intros st n Hi Hn Hf.
  - assert (n = length ast) by lia; subst n.
    rewrite skipn_all; simpl.
    destruct (Z.ltb_spec (i_t st) (len ast)) as [H|H];
      [unfold len in H; lia|].
    unfold finish; simpl. rewrite app_nil_r.
    destruct st; simpl in *; subst; reflexivity.
  - simpl.
    destruct (Z.ltb_spec (i_t st) (len ast)) as [H|H]; unfold len in H.
    2:{ assert (n = length ast) by lia; subst n.
        rewrite skipn_all; simpl.
        unfold finish; simpl. rewrite app_nil_r.
        destruct st; simpl in *; subst; reflexivity. }
    destruct (skipn_uncons ast n) as [u [Hu Hs]]; [lia|].
    assert (Hnext : forall st', i_t st' = i_t st + 1 ->
              for_loop_t fuel ast st'
              = r <- emit (pair Copied) (pair Inserted)
                       (if N.eqb u newline then AfterNewline else AfterOther)
                       (depth_t st') (skipn (S n) ast) ;;
                Normal (finish st' ast r)).
    { intros st' Hst'. rewrite (IH st' (S n)) by lia.
      now rewrite (before_at_S _ _ _ Hu). }
    rewrite Hs. unfold for_body_t.
    rewrite Hi, char_at_of_nat, Hu. cbn [is_char emit].
    destruct (N.eqb u lparen) eqn:El.
    { apply N.eqb_eq in El; subst u.
      destruct (str_repeat two_spaces (depth_t st + 1)) as [ind| |];
        cbn [bind]; trivial.
      rewrite Hnext by (simpl; lia). cbn [depth_t N.eqb lparen newline Pos.eqb].
      destruct (emit _ _ AfterOther (depth_t st + 1) (skipn (S n) ast))
        as [r| |]; cbn [bind]; trivial.
      unfold finish, copied, inserted; cbn [result_t fst snd map].
      now rewrite <- !app_assoc. }
    destruct (N.eqb u rparen) eqn:Er.
    { apply N.eqb_eq in Er; subst u.
      destruct (str_repeat two_spaces (depth_t st - 1)) as [ind| |];
        cbn [bind]; trivial.
      rewrite Hnext by (simpl; lia). cbn [depth_t N.eqb rparen newline Pos.eqb].
      destruct (emit _ _ AfterOther (depth_t st - 1) (skipn (S n) ast))
        as [r| |]; cbn [bind]; trivial.
      unfold finish, copied, inserted; cbn [result_t fst snd map].
      now rewrite <- !app_assoc. }
    destruct (N.eqb u space) eqn:Es.
    { apply N.eqb_eq in Es; subst u.
      unfold before_at.
      destruct (is_char (char_at ast (Z.of_nat n - 1)) newline) eqn:Eb;
        cbn [andb negb].
      - cbn [bind]. rewrite Hnext by (simpl; lia).
        cbn [depth_t N.eqb space newline Pos.eqb].
        destruct (emit _ _ AfterOther (depth_t st) (skipn (S n) ast))
          as [r| |]; cbn [bind]; trivial.
        unfold finish, copied; cbn [result_t fst snd map].
        now rewrite <- !app_assoc.
      - destruct (str_repeat two_spaces (depth_t st)) as [ind| |];
          cbn [bind]; trivial.
        rewrite while_spaces_lead by lia. rewrite Hs. cbn [lead bind].
        change (N.eqb space space) with true. cbv iota.
        pose proof (lead_le (skipn (S n) ast)) as Hle.
        rewrite length_skipn in Hle.
        rewrite (IH _ (n + S (lead (skipn (S n) ast)))%nat);
          [|simpl; lia|lia|lia].
        cbn [depth_t].
        rewrite (emit_InRun _ _
                   (before_at ast (n + S (lead (skipn (S n) ast))))).
        rewrite skipn_skipn.
        replace (lead (skipn (S n) ast) + S n)%nat
          with (n + S (lead (skipn (S n) ast)))%nat by lia.
        destruct (emit _ _ _ (depth_t st) _) as [r| |]; cbn [bind]; trivial.
        unfold finish, inserted; cbn [result_t fst snd map].
        now rewrite <- !app_assoc. }
    cbn [andb bind].
    rewrite Hnext by (simpl; lia). cbn [depth_t].
    destruct (emit _ _ _ (depth_t st) (skipn (S n) ast))
      as [r| |]; cbn [bind]; trivial.
    unfold finish, copied; cbn [result_t fst snd map].
    now rewrite <- !app_assoc.
Qed.

(** ** Indentation *)

Lemma str_repeat_nonneg (d : Z) :
  0 <= d -> str_repeat two_spaces d = Normal (indentation (Z.to_nat d)).
Proof.
  intros H. unfold str_repeat.
  destruct (Z.ltb_spec d 0); [lia|reflexivity].
Qed.

Lemma str_repeat_neg (d : Z) :
  d < 0 -> str_repeat two_spaces d = Throw RangeError.
Proof.
  intros H. unfold str_repeat.
  destruct (Z.ltb_spec d 0); [reflexivity|lia].
Qed.

(** ** Nesting depth *)

Lemma nesting_nil : nesting [] = 0.
Proof. reflexivity. Qed.

Lemma nesting_cons (u : code_unit) (s : js_string) :
  nesting (u :: s)
  = (if N.eqb u lparen then 1 else if N.eqb u rparen then -1 else 0)
    + nesting s.
Proof.
  unfold nesting, count; cbn [filter].
  destruct (N.eqb u lparen) eqn:El; destruct (N.eqb u rparen) eqn:Er;
    cbn [length]; try lia.
  apply N.eqb_eq in El, Er; subst u; discriminate.
Qed.

(** The depth after one more character, and what it means for [nesting]. *)
Ltac step_depth u d d' Hd' :=
  set (d' := if N.eqb u lparen then d + 1
             else if N.eqb u rparen then d - 1 else d) in *;
  assert (Hd' : forall x, d + nesting (u :: x) = d' + nesting x)
    by (intros x; rewrite nesting_cons; unfold d';
        destruct (N.eqb u lparen); [lia|];
        destruct (N.eqb u rparen); lia).

Lemma nonneg_from_iff (s : js_string) :
  forall d, 0 <= d ->
            (nonneg_from d s = true
             <-> forall n, 0 <= d + nesting (firstn n s)).
Proof.
  induction s as [|u s IH]; intros d Hd; cbn [nonneg_from].
  - split; [|trivial]. intros _ n. rewrite firstn_nil, nesting_nil. lia.
  - step_depth u d d' Hd'.
    rewrite andb_true_iff, Z.leb_le. split.
    + intros [H0 H] [|n]; cbn [firstn].
      * rewrite nesting_nil; lia.
      * rewrite Hd'. now apply IH.
    + intros H.
      assert (H0 : 0 <= d').
      { specialize (H 1%nat). cbn [firstn] in H.
        rewrite Hd', nesting_nil in H. lia. }
      split; [exact H0|].
      apply IH; [exact H0|].
      intros n. rewrite <- Hd'. exact (H (S n)).
Qed.

(** [never_negative]: no prefix closes more parentheses than it opens. *)
Lemma never_negative_iff (s : js_string) :
  never_negative s = true <-> forall n, 0 <= nesting (firstn n s).
Proof.
  unfold never_negative. rewrite nonneg_from_iff by lia.
  split; intros H n; specialize (H n); lia.
Qed.

(** The depth goes negative: some prefix closes more than it opens. *)
Lemma goes_negative_iff (s : js_string) :
  never_negative s = false <-> exists n, nesting (firstn n s) < 0.
Proof.
  split.
  - intros H.
    assert (Hex : forall s d, 0 <= d -> nonneg_from d s = false ->
                    exists n, d + nesting (firstn n s) < 0).
    { clear. induction s as [|u s IH]; intros d Hd H; cbn [nonneg_from] in H.
      - discriminate.
      - step_depth u d d' Hd'.
        destruct (Z.leb_spec 0 d') as [H0|H0]; cbn [andb] in H.
        + destruct (IH d' H0 H) as [n Hn].
          exists (S n). cbn [firstn]. now rewrite Hd'.
        + exists 1%nat. cbn [firstn]. rewrite Hd', nesting_nil. lia. }
    destruct (Hex s 0) as [n Hn]; [lia|exact H|].
    exists n; lia.
  - intros [n Hn].
    destruct (never_negative s) eqn:E; [|reflexivity].
    rewrite never_negative_iff in E. specialize (E n). lia.
Qed.

(** ** What [emit] returns *)

Section EmitResults.

Context {T : Type} (cp ins : code_unit -> T).

(** While the depth stays at 0 or above, [emit] returns, at the depth
    the parentheses read leave it at. *)
Lemma emit_returns (s : js_string) :
  forall b d, 0 <= d -> nonneg_from d s = true ->
              exists out, emit cp ins b d s = Normal (d + nesting s, out).
Proof.
  induction s as [|u s IH]; intros b d Hd H.
  - exists []. simpl. rewrite nesting_nil. do 2 f_equal. lia.
  - cbn [nonneg_from] in H. step_depth u d d' Hd'.
    apply andb_true_iff in H as [H0 H]. apply Z.leb_le in H0.
    rewrite Hd'. cbn [emit]. unfold d' in *; clear d' Hd'.
    destruct (N.eqb u lparen).
    { rewrite str_repeat_nonneg by lia. cbn [bind].
      destruct (IH AfterOther _ H0 H) as [out ->]. cbn [bind fst snd].
      eexists; reflexivity. }
    destruct (N.eqb u rparen).
    { rewrite str_repeat_nonneg by lia. cbn [bind].
      destruct (IH AfterOther _ H0 H) as [out ->]. cbn [bind fst snd].
      eexists; reflexivity. }
    destruct (N.eqb u space).
    { destruct b.
      - destruct (IH AfterOther _ H0 H) as [out ->]. cbn [bind fst snd].
        eexists; reflexivity.
      - exact (IH InRun _ H0 H).
      - rewrite str_repeat_nonneg by lia. cbn [bind].
        destruct (IH InRun _ H0 H) as [out ->]. cbn [bind fst snd].
        eexists; reflexivity. }
    destruct (IH (if N.eqb u newline then AfterNewline else AfterOther)
                _ H0 H) as [out ->].
    cbn [bind fst snd]. eexists; reflexivity.
Qed.

(** Once the depth goes below 0, [emit] throws. *)
Lemma emit_throws (s : js_string) :
  forall b d, 0 <= d -> nonneg_from d s = false ->
              emit cp ins b d s = Throw RangeError.
Proof.
  induction s as [|u s IH]; intros b d Hd H; [discriminate|].
  cbn [nonneg_from] in H. cbn [emit].
  destruct (N.eqb u lparen).
  { destruct (Z.leb_spec 0 (d + 1)); [|lia]. cbn [andb] in H.
    rewrite str_repeat_nonneg by lia. cbn [bind].
    now rewrite IH by (trivial; lia). }
  destruct (N.eqb u rparen).
  { destruct (Z.leb_spec 0 (d - 1)); cbn [andb] in H.
    - rewrite str_repeat_nonneg by lia. cbn [bind].
      now rewrite IH by (trivial; lia).
    - now rewrite str_repeat_neg by lia. }
  destruct (Z.leb_spec 0 d); [|lia]. cbn [andb] in H.
  destruct (N.eqb u space).
  { destruct b.
    - now rewrite IH.
    - now apply IH.
    - rewrite str_repeat_nonneg by lia. cbn [bind]. now rewrite IH. }
  now rewrite IH.
Qed.

(** [emit] never runs out of fuel: it has none. *)
Lemma emit_total (s : js_string) (b : before) (d : Z) :
  0 <= d -> emit cp ins b d s <> OutOfFuel.
Proof.
  intros Hd. destruct (nonneg_from d s) eqn:E.
  - destruct (emit_returns s b d Hd E) as [out ->]. discriminate.
  - rewrite (emit_throws s b d Hd E). discriminate.
Qed.

(** Relabelling the output. *)
Lemma emit_map {T' : Type} (f : T -> T') (s : js_string) :
  forall b d,
    emit (fun u => f (cp u)) (fun u => f (ins u)) b d s
    = r <- emit cp ins b d s ;; Normal (fst r, map f (snd r)).
Proof.
  induction s as [|u s IH]; intros b d; cbn [emit]; [reflexivity|].
  destruct (N.eqb u lparen).
  { destruct (str_repeat two_spaces (d + 1)); cbn [bind]; trivial.
    rewrite IH. destruct (emit cp ins AfterOther (d + 1) s);
      cbn [bind fst snd]; trivial.
    now rewrite !map_app, map_map. }
  destruct (N.eqb u rparen).
  { destruct (str_repeat two_spaces (d - 1)); cbn [bind]; trivial.
    rewrite IH. destruct (emit cp ins AfterOther (d - 1) s);
      cbn [bind fst snd]; trivial.
    now rewrite !map_app, map_map. }
  destruct (N.eqb u space).
  { destruct b.
    - rewrite IH. destruct (emit cp ins AfterOther d s);
        cbn [bind fst snd]; trivial.
    - apply IH.
    - destruct (str_repeat two_spaces d); cbn [bind]; trivial.
      rewrite IH. destruct (emit cp ins InRun d s);
        cbn [bind fst snd]; trivial.
      now rewrite !map_app, map_map. }
  rewrite IH. destruct (emit cp ins _ d s); cbn [bind fst snd]; trivial.
Qed.

(** The characters of the input that are neither spaces nor line
    breaks are the ones of the output, in the same order. *)
Lemma emit_filter (text : T -> code_unit) (keep : code_unit -> bool) :
  (forall u, text (cp u) = u) -> (forall u, text (ins u) = u) ->
  keep space = false -> keep newline = false ->
  forall s b d r,
    emit cp ins b d s = Normal r ->
    filter keep (map text (snd r)) = filter keep s.
Proof.
  intros Hcp Hins Hsp Hnl.
  assert (Hind : forall d ind, str_repeat two_spaces d = Normal ind ->
                   filter keep (map text (map ins ind)) = []).
  { intros d ind H. unfold str_repeat in H.
    destruct (d <? 0); [discriminate|]. injection H as <-.
    induction (Z.to_nat d) as [|n IHn]; [reflexivity|].
    cbn [repeat concat two_spaces app map filter].
    now rewrite !Hins, Hsp. }
  assert (Fapp : forall a b,
             filter keep (map text (a ++ b))
             = filter keep (map text a) ++ filter keep (map text b))
    by (intros; now rewrite map_app, filter_app).
  assert (Fcp : forall u l,
             filter keep (map text (cp u :: l))
             = (if keep u then [u] else []) ++ filter keep (map text l))
    by (intros u l; cbn [map filter]; rewrite Hcp;
        destruct (keep u); reflexivity).
  assert (Fnl : forall l,
             filter keep (map text (ins newline :: l))
             = filter keep (map text l))
    by (intros l; cbn [map filter]; now rewrite Hins, Hnl).
  induction s as [|u s IH]; intros b d r H; cbn [emit] in H.
  - injection H as <-. reflexivity.
  - cbn [filter].
    destruct (N.eqb_spec u lparen) as [->|Hl];
      [|destruct (N.eqb_spec u rparen) as [->|Hr];
        [|destruct (N.eqb_spec u space) as [->|Hs]; [destruct b|]]];
      repeat match type of H with
        | context [bind ?c _] =>
            let E := fresh "E" in
            destruct c eqn:E; cbn [bind] in H; try discriminate
        end;
      try (injection H as <-; cbn [snd app]);
      repeat (rewrite Fnl || rewrite Fcp || rewrite Fapp);
      repeat match goal with
        | E : str_repeat _ _ = Normal _ |- _ =>
            rewrite (Hind _ _ E); clear E
        | E : emit _ _ _ _ _ = Normal _ |- _ =>
            rewrite (IH _ _ _ E); clear E
        end;
      rewrite ?Hsp; cbn [app]; try reflexivity;
      try (match goal with
           | |- context [keep ?x] => destruct (keep x)
           end; reflexivity).
Qed.

End EmitResults.

(** ** [formatAST] in terms of [emit] *)

Lemma run_t_emit (ast : js_string) :
  run_t ast
  = r <- emit (pair Copied) (pair Inserted) AfterOther 0 ast ;;
    Normal {| i_t := len ast; depth_t := fst r; result_t := snd r |}.
Proof.
  unfold run_t.
  rewrite (for_loop_t_emit _ _ initial_t O) by (simpl; lia).
  reflexivity.
Qed.

Lemma run_emit (ast : js_string) :
  run ast
  = r <- emit (fun u => u) (fun u => u) AfterOther 0 ast ;;
    Normal {| i := len ast; depth := fst r; result := snd r |}.
Proof.
  unfold run. change initial with (erase_state initial_t).
  rewrite for_loop_erase. fold (run_t ast). rewrite run_t_emit.
  change (emit (fun u => u) (fun u => u) AfterOther 0 ast)
    with (emit (fun u => snd (Copied, u)) (fun u => snd (Inserted, u))
            AfterOther 0 ast).
  rewrite (emit_map (pair Copied) (pair Inserted) snd).
  destruct (emit (pair Copied) (pair Inserted) AfterOther 0 ast);
    reflexivity.
Qed.

Lemma formatAST_emit (ast : js_string) (indent : Z) :
  formatAST ast indent
  = spaces <- str_repeat two_spaces indent ;;
    r <- emit (fun u => u) (fun u => u) AfterOther 0 ast ;;
    Normal (snd r).
Proof.
  unfold formatAST. rewrite run_emit.
  destruct (str_repeat two_spaces indent); cbn [bind]; trivial.
  destruct (emit _ _ AfterOther 0 ast); reflexivity.
Qed.

Lemma formatAST_t_emit (ast : js_string) (indent : Z) :
  formatAST_t ast indent
  = spaces <- str_repeat two_spaces indent ;;
    r <- emit (pair Copied) (pair Inserted) AfterOther 0 ast ;;
    Normal (snd r).
Proof.
  unfold formatAST_t. rewrite run_t_emit.
  destruct (str_repeat two_spaces indent); cbn [bind]; trivial.
  destruct (emit _ _ AfterOther 0 ast); reflexivity.
Qed.

(** ** Termination and faults *)

(** The fuel given to the loops is enough: [formatAST] returns or
    throws. *)
Theorem formatAST_total (ast : js_string) (indent : Z) :
  formatAST ast indent <> OutOfFuel.
Proof.
  rewrite formatAST_emit.
  destruct (str_repeat two_spaces indent) eqn:E; cbn [bind];
    try discriminate.
  - assert (Ht := emit_total (fun u => u) (fun u => u) ast AfterOther 0).
    destruct (emit _ _ AfterOther 0 ast); cbn [bind];
      try discriminate.
    exfalso; apply Ht; [lia|reflexivity].
  - unfold str_repeat in E. destruct (indent <? 0); discriminate.
Qed.

(** [formatAST] returns exactly on a count it can repeat and an input
    whose depth never goes negative. *)
Theorem formatAST_returns_iff (ast : js_string) (indent : Z) :
  (exists out, formatAST ast indent = Normal out)
  <-> 0 <= indent /\ never_negative ast = true.
Proof.
  rewrite formatAST_emit. split.
  - intros [out H].
    destruct (Z.ltb_spec indent 0) as [Hi|Hi].
    { now rewrite str_repeat_neg in H. }
    split; [exact Hi|].
    destruct (never_negative ast) eqn:E; [reflexivity|].
    rewrite str_repeat_nonneg in H by exact Hi. cbn [bind] in H.
    now rewrite emit_throws in H by (trivial; lia).
  - intros [Hi H]. rewrite str_repeat_nonneg by exact Hi. cbn [bind].
    destruct (emit_returns (fun u => u) (fun u => u) ast AfterOther 0)
      as [out ->]; [lia|exact H|].
    now exists out.
Qed.

(** C1, as the code has it: on every input on which the nesting depth
    goes negative, [formatAST] makes no check of its own, and does not
    complete: at the closing parenthesis that takes the depth to -1,
    ['  '.repeat(depth)] throws a RangeError; no string is returned. *)
Theorem formatAST_throws_when_depth_negative (s : js_string) (indent : Z) :
  never_negative s = false -> formatAST s indent = Throw RangeError.
Proof.
  intros H. rewrite formatAST_emit.
  destruct (Z.ltb_spec indent 0) as [Hi|Hi].
  - now rewrite str_repeat_neg.
  - rewrite str_repeat_nonneg by exact Hi. cbn [bind].
    now rewrite emit_throws by (trivial; lia).
Qed.

Lemma formatAST_throws_when_depth_negative_witness :
  never_negative (lit ")") = false
  /\ formatAST (lit ")") 0 = Throw RangeError.
Proof.
  split; [reflexivity|].
  apply (formatAST_throws_when_depth_negative (lit ")") 0).
  reflexivity.
Defined.

(** C1, as stated, fails on [")"]: the depth goes negative, and
    [formatAST] throws instead of returning a string. *)
Lemma formatAST_unbalanced_counterexample :
  never_negative (lit ")") = false
  /\ formatAST (lit ")") 0 = Throw RangeError
  /\ ~ exists out, formatAST (lit ")") 0 = Normal out.
Proof.
  split; [reflexivity|]. split; [reflexivity|].
  intros [out H]. vm_compute in H. discriminate.
Qed.

(** ** What the output keeps of the input *)

(** The characters a filter keeps, when it keeps neither spaces nor line
    breaks, are the same in the output and in the input. *)
Lemma formatAST_filter (keep : code_unit -> bool) (s : js_string)
      (indent : Z) (out : js_string) :
  keep space = false ->
  keep newline = false ->
  formatAST s indent = Normal out ->
  filter keep out = filter keep s.
Proof.
  intros Hsp Hnl H. rewrite formatAST_emit in H.
  destruct (str_repeat two_spaces indent); cbn [bind] in H;
    try discriminate.
  destruct (emit _ _ AfterOther 0 s) as [r| |] eqn:E; cbn [bind] in H;
    try discriminate.
  injection H as <-.
  rewrite <- (emit_filter (fun u => u) (fun u => u) (fun u => u) keep
                (fun u => eq_refl) (fun u => eq_refl) Hsp Hnl _ _ _ _ E).
  now rewrite map_id.
Qed.

(** C5: whatever counts as whitespace, as long as space and line break
    do, the characters of the output that are not whitespace are those
    of the input, in the same order, whenever [formatAST] completes. *)
Theorem formatAST_keeps_non_whitespace
        (whitespace : code_unit -> bool) (s : js_string) (indent : Z)
        (out : js_string) :
  whitespace space = true ->
  whitespace newline = true ->
  formatAST s indent = Normal out ->
  filter (fun u => negb (whitespace u)) out
  = filter (fun u => negb (whitespace u)) s.
Proof.
  intros Hsp Hnl H.
  apply (formatAST_filter (fun u => negb (whitespace u)) s indent out);
    [now rewrite Hsp|now rewrite Hnl|exact H].
Qed.

Lemma formatAST_keeps_non_whitespace_witness :
  formatAST (lit "(a  (b c))") 0
  = Normal (unlines (map lit ["("; "  a"; "  ("; "    b"; "    c"; "  )"; ")"]))
  /\ filter (fun u => negb (ascii_whitespace u))
       (unlines (map lit ["("; "  a"; "  ("; "    b"; "    c"; "  )"; ")"]))
     = filter (fun u => negb (ascii_whitespace u)) (lit "(a  (b c))").
Proof.
  split; [reflexivity|].
  apply (formatAST_keeps_non_whitespace ascii_whitespace
           (lit "(a  (b c))") 0); reflexivity.
Defined.

(** C6, as the code has it: whenever [formatAST] completes, the output
    has as many ['('] as the input, and as many [')']. *)
Theorem formatAST_keeps_paren_counts (s : js_string) (indent : Z)
        (out : js_string) :
  formatAST s indent = Normal out ->
  count lparen out = count lparen s /\ count rparen out = count rparen s.
Proof.
  intros H. unfold count. split; apply f_equal.
  - now apply (formatAST_filter (fun u => N.eqb u lparen) s indent out).
  - now apply (formatAST_filter (fun u => N.eqb u rparen) s indent out).
Qed.

Lemma formatAST_keeps_paren_counts_witness :
  count lparen (unlines (map lit ["("; "  ("; "    a"; "  )"; ")"]))
  = count lparen (lit "((a))")
  /\ count rparen (unlines (map lit ["("; "  ("; "    a"; "  )"; ")"]))
     = count rparen (lit "((a))").
Proof.
  apply (formatAST_keeps_paren_counts (lit "((a))") 0). reflexivity.
Defined.

(** C6, as stated for all inputs, fails on [")"]: there is no output
    whose parentheses could be counted. *)
Lemma formatAST_paren_counts_counterexample :
  ~ exists out,
      formatAST (lit ")") 0 = Normal out
      /\ count lparen out = count lparen (lit ")")
      /\ count rparen out = count rparen (lit ")").
Proof.
  intros [out [H _]]. vm_compute in H. discriminate.
Qed.

(** ** The depth counter *)

(** C7: on a balanced input the loop returns, having read the whole
    input, with its depth counter at 0. *)
Theorem depth_zero_after_balanced (s : js_string) :
  balanced s = true ->
  exists st, run s = Normal st /\ i st = len s /\ depth st = 0.
Proof.
  unfold balanced. intros H.
  apply andb_true_iff in H as [Hn H0]. apply Z.eqb_eq in H0.
  rewrite run_emit.
  destruct (emit_returns (fun u => u) (fun u => u) s AfterOther 0)
    as [out ->]; [lia|exact Hn|].
  cbn [bind fst snd]. eexists. split; [reflexivity|].
  cbn [i depth]. split; [reflexivity|lia].
Qed.

Lemma depth_zero_after_balanced_witness :
  balanced (lit "(a (b) (c d))") = true
  /\ exists st, run (lit "(a (b) (c d))") = Normal st
                /\ i st = len (lit "(a (b) (c d))") /\ depth st = 0.
Proof.
  split; [reflexivity|].
  apply (depth_zero_after_balanced (lit "(a (b) (c d))")). reflexivity.
Defined.

(** ** The example of the specification *)

(** C8: [formatAST "(a (b) (c d))"] line by line.  [a] is at level 1;
    [(b)] and [(c d)] open at level 1, with [b], [c] and [d] at level 2;
    between [c] and [d] there is one line break and the indentation, and
    the same is returned when more spaces separate them. *)
Theorem formatAST_example :
  formatAST (lit "(a (b) (c d))") 0
  = Normal (unlines [ indentation 0 ++ lit "(";
                      indentation 1 ++ lit "a";
                      indentation 1 ++ lit "(";
                      indentation 2 ++ lit "b";
                      indentation 1 ++ lit ")";
                      indentation 1 ++ lit "(";
                      indentation 2 ++ lit "c";
                      indentation 2 ++ lit "d";
                      indentation 1 ++ lit ")";
                      indentation 0 ++ lit ")" ])
  /\ formatAST (lit "(a (b) (c    d))") 0
     = formatAST (lit "(a (b) (c d))") 0.
Proof.
  split; reflexivity.
Qed.

(** The empty input gives the empty output. *)
Example formatAST_empty : formatAST (lit "") 0 = Normal (lit "").
Proof. reflexivity. Qed.

(** ** The second parameter *)

(** In the loop's own terms: an integer count that is not negative has
    no effect on the result. *)
Lemma formatAST_indent_irrelevant (ast : js_string) (n : Z) :
  0 <= n -> formatAST ast n = formatAST ast 0.
Proof.
  intros Hn. unfold formatAST.
  rewrite (str_repeat_nonneg n Hn), (str_repeat_nonneg 0) by lia.
  reflexivity.
Qed.

(** A negative integer count makes [formatAST] throw before its loop
    starts. *)
Lemma formatAST_negative_indent (ast : js_string) (n : Z) :
  n < 0 -> formatAST ast n = Throw RangeError.
Proof.
  intros Hn. unfold formatAST. now rewrite str_repeat_neg.
Qed.

(** [truncate] rounds toward zero: the integer part of a rational that
    is not negative is the greatest integer below or at it, that of one
    that is not positive the least integer above or at it. *)
Lemma truncate_bounds (q : Q) :
  ((0 <= q)%Q ->
   (inject_Z (truncate q) <= q)%Q /\ (q < inject_Z (truncate q + 1))%Q)
  /\ ((q <= 0)%Q ->
      (inject_Z (truncate q - 1) < q)%Q /\ (q <= inject_Z (truncate q))%Q).
Proof.
  destruct q as [a b]. unfold truncate, Qle, Qlt, inject_Z.
  cbn [Qnum Qden].
  pose proof (Z.quot_rem' a (Z.pos b)) as E.
  pose proof (Z.rem_bound_abs a (Z.pos b) ltac:(lia)) as Hr.
  split; intros H.
  - assert (Ha : 0 <= a) by lia.
    pose proof (Z.rem_nonneg a (Z.pos b) ltac:(lia) Ha) as Hr'.
    nia.
  - assert (Ha : a <= 0) by lia.
    pose proof (Z.rem_nonpos a (Z.pos b) ltac:(lia) Ha) as Hr'.
    nia.
Qed.

(** The integer part is negative exactly from -1 downward. *)
Lemma truncate_negative (q : Q) : truncate q < 0 <-> (q <= -1)%Q.
Proof.
  destruct q as [a b]. unfold truncate, Qle.
  cbn [Qnum Qden].
  pose proof (Z.quot_rem' a (Z.pos b)) as E.
  pose proof (Z.rem_bound_abs a (Z.pos b) ltac:(lia)) as Hr.
  destruct (Z.le_gt_cases 0 a) as [Ha|Ha].
  - pose proof (Z.quot_pos a (Z.pos b) Ha ltac:(lia)). lia.
  - pose proof (Z.rem_nonpos a (Z.pos b) ltac:(lia) ltac:(lia)) as Hr'.
    nia.
Qed.

(** The call with a Number is the call with its integer part, when the
    engine can hold that many pairs of spaces. *)
Lemma formatAST_number_integer (max_length : Z) (ast : js_string)
      (n : js_number) (k : Z) :
  ToIntegerOrInfinity n = Int k ->
  2 * k <= max_length ->
  formatAST_number max_length ast n = formatAST ast k.
Proof.
  intros E Hk. unfold formatAST_number, formatAST, repeat_number, str_repeat.
  rewrite E. change (len two_spaces) with 2.
  destruct (k <? 0); [reflexivity|].
  destruct (Z.ltb_spec max_length (2 * k)); [lia|reflexivity].
Qed.

(** C9, as the code has it: ['  '.repeat(n)] takes the integer part of
    the Number [n].  When [n] is above -1 (or is NaN, which counts as 0)
    and the engine can hold that many pairs of spaces, the call returns
    what the call with 0 returns; when [n] is -1 or less, infinite, or
    asks for more pairs of spaces than the engine can hold, the call
    throws a RangeError before the loop starts. *)
Theorem formatAST_number_indent (max_length : Z) (ast : js_string) :
  0 <= max_length ->
  (forall q : Q,
      (-1 < q)%Q -> 2 * truncate q <= max_length ->
      formatAST_number max_length ast (Finite q) = formatAST ast 0)
  /\ formatAST_number max_length ast NaN = formatAST ast 0
  /\ (forall q : Q,
        (q <= -1)%Q \/ max_length < 2 * truncate q ->
        formatAST_number max_length ast (Finite q) = Throw RangeError)
  /\ formatAST_number max_length ast PlusInfinity = Throw RangeError
  /\ formatAST_number max_length ast MinusInfinity = Throw RangeError.
Proof.
  intros Hmax. split; [|split; [|split; [|split; reflexivity]]].
  - intros q Hq Hk.
    assert (Hnn : 0 <= truncate q).
    { destruct (Z.lt_ge_cases (truncate q) 0) as [Hneg|Hge]; [|exact Hge].
      apply truncate_negative in Hneg.
      exfalso. exact (Qlt_not_le _ _ Hq Hneg). }
    rewrite (formatAST_number_integer max_length ast (Finite q) (truncate q))
      by (trivial; reflexivity).
    now apply formatAST_indent_irrelevant.
  - now rewrite (formatAST_number_integer max_length ast NaN 0)
      by (trivial; lia).
  - intros q H. unfold formatAST_number, repeat_number.
    cbn [ToIntegerOrInfinity]. change (len two_spaces) with 2.
    destruct (Z.ltb_spec (truncate q) 0) as [Hneg|Hge]; [reflexivity|].
    destruct (Z.ltb_spec max_length (2 * truncate q)) as [Hbig|Hfit];
      [reflexivity|].
    destruct H as [H|H]; [|lia].
    apply truncate_negative in H. lia.
Qed.

Lemma formatAST_number_indent_witness :
  0 <= 536870888
  /\ formatAST_number 536870888 (lit "(a b)") (Finite (-1 # 2))
     = formatAST (lit "(a b)") 0
  /\ formatAST_number 536870888 (lit "(a b)") (Finite (5 # 2))
     = formatAST (lit "(a b)") 0
  /\ formatAST_number 536870888 (lit "(a b)") (Finite (268435456 # 1))
     = Throw RangeError
  /\ formatAST_number 536870888 (lit "(a b)") (Finite (-3 # 2))
     = Throw RangeError.
Proof.
  assert (Hmax : 0 <= 536870888) by lia.
  destruct (formatAST_number_indent 536870888 (lit "(a b)") Hmax)
    as [Hsame [_ [Hthrow _]]].
  split; [exact Hmax|]. split; [|split; [|split]].
  - apply Hsame; [reflexivity|]. vm_compute. discriminate.
  - apply Hsame; [reflexivity|]. vm_compute. discriminate.
  - apply Hthrow. right. reflexivity.
  - apply Hthrow. left. vm_compute. discriminate.
Defined.

(** C9, as stated for every value of the parameter, fails at -1: the
    call throws, the call with 0 returns. *)
Lemma formatAST_indent_counterexample :
  formatAST (lit "(a)") (-1) = Throw RangeError
  /\ formatAST (lit "(a)") 0 = Normal (unlines (map lit ["("; "  a"; ")"]))
  /\ formatAST (lit "(a)") (-1) <> formatAST (lit "(a)") 0.
Proof.
  split; [reflexivity|]. split; [reflexivity|].
  vm_compute. discriminate.
Qed.

(** ** A space at the start of the input *)

(** C10, as the code has it: when the input starts with a space and
    [formatAST] completes, the output starts with a line break. *)
Theorem formatAST_leading_space (s : js_string) (indent : Z)
        (out : js_string) :
  hd_error s = Some space ->
  formatAST s indent = Normal out ->
  hd_error out = Some newline.
Proof.
  intros Hs H. rewrite formatAST_emit in H.
  destruct s as [|u s]; [discriminate|]. injection Hs as ->.
  destruct (str_repeat two_spaces indent); cbn [bind] in H;
    try discriminate.
  cbn [emit] in H.
  change (N.eqb space lparen) with false in H.
  change (N.eqb space rparen) with false in H.
  change (N.eqb space space) with true in H.
  cbv iota in H. rewrite (str_repeat_nonneg 0) in H by lia.
  cbn [bind] in H.
  destruct (emit _ _ InRun 0 s); cbn [bind] in H; try discriminate.
  injection H as <-. reflexivity.
Qed.

Lemma formatAST_leading_space_witness :
  hd_error (lit "  (a)") = Some space
  /\ formatAST (lit "  (a)") 0
     = Normal (unlines (map lit [""; "("; "  a"; ")"]))
  /\ hd_error (unlines (map lit [""; "("; "  a"; ")"])) = Some newline.
Proof.
  split; [reflexivity|]. split; [reflexivity|].
  apply (formatAST_leading_space (lit "  (a)") 0); reflexivity.
Defined.

(** C10, as stated for every input that starts with a space, fails on
    [" )"]: [formatAST] throws, there is no output. *)
Lemma formatAST_leading_space_counterexample :
  hd_error (lit " )") = Some space
  /\ formatAST (lit " )") 0 = Throw RangeError
  /\ ~ exists out, formatAST (lit " )") 0 = Normal out
                   /\ hd_error out = Some newline.
Proof.
  split; [reflexivity|]. split; [reflexivity|].
  intros [out [H _]]. vm_compute in H. discriminate.
Qed.

(** ** Deleting what the formatter inserted *)

Lemma delete_inserted_app (a b : traced) :
  delete_inserted (a ++ b) = delete_inserted a ++ delete_inserted b.
Proof.
  unfold delete_inserted, erase. now rewrite filter_app, map_app.
Qed.

Lemma delete_inserted_inserted (s : js_string) :
  delete_inserted (map (pair Inserted) s) = [].
Proof.
  induction s as [|u s IH]; [reflexivity|exact IH].
Qed.

Lemma delete_inserted_copied (u : code_unit) (t : traced) :
  delete_inserted ((Copied, u) :: t) = u :: delete_inserted t.
Proof. reflexivity. Qed.

Lemma delete_inserted_cons_inserted (u : code_unit) (t : traced) :
  delete_inserted ((Inserted, u) :: t) = delete_inserted t.
Proof. reflexivity. Qed.

Lemma emit_delete_inserted (s : js_string) :
  forall b d r,
    emit (pair Copied) (pair Inserted) b d s = Normal r ->
    delete_inserted (snd r)
    = without_spaces match b with AfterNewline => true | _ => false end s.
Proof.
  induction s as [|u s IH]; intros b d r H; cbn [emit] in H.
  - injection H as <-. reflexivity.
  - cbn [without_spaces].
    destruct (N.eqb_spec u lparen) as [->|Hl];
      [change (N.eqb lparen space) with false
      |destruct (N.eqb_spec u rparen) as [->|Hr];
        [change (N.eqb rparen space) with false
        |destruct (N.eqb_spec u space) as [->|Hs]; [destruct b|]]];
      repeat match type of H with
        | context [bind ?c _] =>
            let E := fresh "E" in
            destruct c eqn:E; cbn [bind] in H; try discriminate
        end;
      try (injection H as <-; cbn [snd app]);
      repeat (rewrite delete_inserted_copied
              || rewrite delete_inserted_cons_inserted
              || rewrite delete_inserted_app
              || rewrite delete_inserted_inserted);
      repeat match goal with
        | E : emit _ _ _ _ _ = Normal _ |- _ => rewrite (IH _ _ _ E); clear E
        end;
      cbn [andb negb app]; try reflexivity.
    destruct (N.eqb u newline); reflexivity.
Qed.

(** A string without spaces loses nothing. *)
Lemma without_spaces_none (s : js_string) :
  count space s = O -> forall b, without_spaces b s = s.
Proof.
  unfold count.
  induction s as [|u s IH]; intros H b; [reflexivity|].
  cbn [filter] in H. cbn [without_spaces].
  destruct (N.eqb u space); [discriminate|].
  cbn [andb]. now rewrite IH.
Qed.

(** What is left of the output, on an input whose depth never goes
    negative. *)
Lemma formatAST_t_delete_inserted (s : js_string) :
  never_negative s = true ->
  exists t, formatAST_t s 0 = Normal t
            /\ formatAST s 0 = Normal (erase t)
            /\ delete_inserted t = without_spaces false s.
Proof.
  intros Hn.
  rewrite formatAST_erase, formatAST_t_emit.
  rewrite (str_repeat_nonneg 0) by lia. cbn [bind].
  destruct (emit_returns (pair Copied) (pair Inserted) s AfterOther 0)
    as [out E]; [lia|exact Hn|].
  rewrite E. cbn [bind snd]. exists out.
  split; [reflexivity|]. split; [reflexivity|].
  exact (emit_delete_inserted s AfterOther 0 _ E).
Qed.

(** C2, as the code has it: on a balanced input, deleting from the
    output the line breaks and indentation that the formatter inserted
    gives the input without its spaces, those not immediately preceded
    by a line break: the formatter has put its line breaks in their
    place. *)
Theorem delete_inserted_formatAST (s : js_string) :
  balanced s = true ->
  exists t, formatAST_t s 0 = Normal t
            /\ formatAST s 0 = Normal (erase t)
            /\ delete_inserted t = without_spaces false s.
Proof.
  unfold balanced. intros H. apply andb_true_iff in H as [Hn _].
  exact (formatAST_t_delete_inserted s Hn).
Qed.

Lemma delete_inserted_formatAST_witness :
  balanced (lit "(a (b))") = true
  /\ exists t, formatAST_t (lit "(a (b))") 0 = Normal t
               /\ formatAST (lit "(a (b))") 0 = Normal (erase t)
               /\ delete_inserted t = without_spaces false (lit "(a (b))").
Proof.
  split; [reflexivity|].
  apply (delete_inserted_formatAST (lit "(a (b))")). reflexivity.
Defined.

(** On a balanced input without spaces the input itself is recovered. *)
Corollary delete_inserted_no_space (s : js_string) :
  balanced s = true -> count space s = O ->
  exists t, formatAST_t s 0 = Normal t
            /\ formatAST s 0 = Normal (erase t)
            /\ delete_inserted t = s.
Proof.
  unfold balanced. intros Hb Hs. apply andb_true_iff in Hb as [Hn _].
  destruct (formatAST_t_delete_inserted s Hn) as [t [H1 [H2 H3]]].
  exists t. rewrite (without_spaces_none s Hs) in H3. auto.
Qed.

(** C2, as stated, fails on ["(a b)"]: the space between [a] and [b] is
    not in the output, so deleting what was inserted gives ["(ab)"]. *)
Lemma delete_inserted_counterexample :
  balanced (lit "(a b)") = true
  /\ exists t, formatAST_t (lit "(a b)") 0 = Normal t
               /\ formatAST (lit "(a b)") 0 = Normal (erase t)
               /\ delete_inserted t = lit "(ab)"
               /\ delete_inserted t <> lit "(a b)".
Proof.
  split; [reflexivity|].
  eexists. split; [reflexivity|]. split; [reflexivity|].
  split; [reflexivity|]. vm_compute. discriminate.
Qed.

(** ** The space rule *)

Lemma lead_spaces (s : js_string) (k : nat) :
  (k < lead s)%nat -> nth_error s k = Some space.
Proof.
  revert k; induction s as [|u s IH]; intros k Hk; cbn [lead] in Hk; [lia|].
  destruct (N.eqb_spec u space) as [->|Hu]; [|lia].
  destruct k as [|k]; [reflexivity|]. apply IH; lia.
Qed.

Lemma lead_stops (s : js_string) : nth_error s (lead s) <> Some space.
Proof.
  induction s as [|u s IH]; cbn [lead]; [discriminate|].
  destruct (N.eqb_spec u space) as [->|Hu]; [exact IH|].
  simpl. congruence.
Qed.

Lemma is_char_true (x : option code_unit) (c : code_unit) :
  is_char x c = true <-> x = Some c.
Proof.
  destruct x as [u|]; simpl.
  - rewrite N.eqb_eq. split; congruence.
  - split; discriminate.
Qed.

(** At the head of an iteration the depth is not negative and [i] is
    within the input. *)
Lemma reachable_bounds (ast : js_string) (st : state_t) :
  reachable ast st -> 0 <= depth_t st /\ 0 <= i_t st <= len ast.
Proof.
  induction 1 as [|st st' Hr [IHd IHi] Hlt Hb].
  - simpl. pose proof (len_nonneg ast). lia.
  - unfold for_body_t in Hb.
    destruct (is_char (char_at ast (i_t st)) lparen).
    { destruct (str_repeat two_spaces (depth_t st + 1)); cbn [bind] in Hb;
        try discriminate.
      injection Hb as <-. simpl. lia. }
    destruct (is_char (char_at ast (i_t st)) rparen).
    { destruct (Z.ltb_spec (depth_t st - 1) 0) as [Hd|Hd].
      - now rewrite str_repeat_neg in Hb.
      - rewrite str_repeat_nonneg in Hb by exact Hd. cbn [bind] in Hb.
        injection Hb as <-. simpl. lia. }
    destruct (is_char (char_at ast (i_t st)) space
              && negb (is_char (char_at ast (i_t st - 1)) newline)).
    { destruct (str_repeat two_spaces (depth_t st)); cbn [bind] in Hb;
        try discriminate.
      replace (i_t st) with (Z.of_nat (Z.to_nat (i_t st))) in Hb by lia.
      rewrite while_spaces_lead in Hb by lia. cbn [bind] in Hb.
      injection Hb as <-. simpl.
      pose proof (lead_le (skipn (Z.to_nat (i_t st)) ast)) as Hle.
      rewrite length_skipn in Hle. unfold len in *. lia. }
    injection Hb as <-. simpl. lia.
Qed.

(** A space that follows a line break of the input is copied. *)
Lemma space_after_newline_copied (ast : js_string) (st : state_t) :
  char_at ast (i_t st) = Some space ->
  char_at ast (i_t st - 1) = Some newline ->
  for_body_t ast st
  = Normal {| i_t := i_t st + 1; depth_t := depth_t st;
              result_t := result_t st ++ copied [space] |}.
Proof.
  intros Hsp Hnl. unfold for_body_t. rewrite Hsp, Hnl. reflexivity.
Qed.

(** C4, as the code has it: at every position the scan reaches that
    holds a space, what the formatter does depends on the character
    before it in the input.  When that character is not a line break
    (position 0 has none), the space rule applies: a line break and the
    indentation of the current depth are appended and the scan moves
    past the whole run of spaces.  When it is a line break, the space is
    copied, nothing is inserted, and the scan moves one position on. *)
Theorem space_breaks_line (ast : js_string) (st : state_t) :
  reachable ast st ->
  i_t st < len ast ->
  char_at ast (i_t st) = Some space ->
  (char_at ast (i_t st - 1) <> Some newline ->
   exists st', for_body_t ast st = Normal st' /\ space_rule ast st st')
  /\ (char_at ast (i_t st - 1) = Some newline ->
      for_body_t ast st
      = Normal {| i_t := i_t st + 1; depth_t := depth_t st;
                  result_t := result_t st ++ copied [space] |}).
Proof.
  intros Hr Hlt Hsp.
  split; [|now apply space_after_newline_copied].
  intros Hnl.
  destruct (reachable_bounds ast st Hr) as [Hd [Hi0 Hi1]].
  assert (Eb : is_char (char_at ast (i_t st - 1)) newline = false).
  { destruct (is_char _ newline) eqn:E; [|reflexivity].
    apply is_char_true in E. contradiction. }
  unfold for_body_t. rewrite Hsp, Eb.
  change (is_char (Some space) lparen) with false.
  change (is_char (Some space) rparen) with false.
  change (is_char (Some space) space) with true.
  cbn [andb negb]. cbv iota.
  rewrite str_repeat_nonneg by exact Hd. cbn [bind].
  remember (Z.to_nat (i_t st)) as n eqn:En.
  assert (Ei : i_t st = Z.of_nat n) by lia.
  replace (while_spaces (length ast) ast (i_t st))
    with (while_spaces (length ast) ast (Z.of_nat n)) by (now rewrite Ei).
  rewrite while_spaces_lead by lia. cbn [bind].
  eexists. split; [reflexivity|].
  unfold space_rule; cbn [i_t depth_t result_t].
  assert (Hn : (n < length ast)%nat) by (unfold len in Hlt; lia).
  destruct (skipn_uncons ast n Hn) as [u [Hu Hs]].
  rewrite Ei, char_at_of_nat, Hu in Hsp. injection Hsp as ->.
  assert (Hlead : (1 <= lead (skipn n ast))%nat).
  { rewrite Hs. cbn [lead]. change (N.eqb space space) with true.
    cbv iota. lia. }
  split; [|split; [reflexivity|split; [lia|split]]].
  - unfold inserted. now rewrite map_app.
  - intros k Hk.
    replace k with (Z.of_nat (n + (Z.to_nat k - n))) by lia.
    rewrite char_at_of_nat, <- nth_error_skipn.
    apply lead_spaces. lia.
  - replace (Z.of_nat (n + lead (skipn n ast)) - 1 + 1)
      with (Z.of_nat (n + lead (skipn n ast))) by lia.
    rewrite char_at_of_nat, <- nth_error_skipn.
    apply lead_stops.
Qed.

Lemma space_breaks_line_witness :
  (reachable (lit "(a   b)")
     {| i_t := 2; depth_t := 1;
        result_t := copied [lparen] ++ inserted [newline]
                    ++ inserted two_spaces ++ copied (lit "a") |}
   /\ exists st',
        for_body_t (lit "(a   b)")
          {| i_t := 2; depth_t := 1;
             result_t := copied [lparen] ++ inserted [newline]
                         ++ inserted two_spaces ++ copied (lit "a") |}
        = Normal st'
        /\ space_rule (lit "(a   b)")
             {| i_t := 2; depth_t := 1;
                result_t := copied [lparen] ++ inserted [newline]
                            ++ inserted two_spaces ++ copied (lit "a") |}
             st')
  /\ (reachable (lit "(a" ++ [newline; space] ++ lit "b)")
        {| i_t := 3; depth_t := 1;
           result_t := copied [lparen] ++ inserted [newline]
                       ++ inserted two_spaces ++ copied (lit "a")
                       ++ copied [newline] |}
      /\ for_body_t (lit "(a" ++ [newline; space] ++ lit "b)")
           {| i_t := 3; depth_t := 1;
              result_t := copied [lparen] ++ inserted [newline]
                          ++ inserted two_spaces ++ copied (lit "a")
                          ++ copied [newline] |}
         = Normal {| i_t := 4; depth_t := 1;
                     result_t := copied [lparen] ++ inserted [newline]
                                 ++ inserted two_spaces ++ copied (lit "a")
                                 ++ copied [newline] ++ copied [space] |}).
Proof.
  assert (Hr : reachable (lit "(a   b)")
                 {| i_t := 2; depth_t := 1;
                    result_t := copied [lparen] ++ inserted [newline]
                                ++ inserted two_spaces ++ copied (lit "a") |}).
  { apply (reach_step (lit "(a   b)")
             {| i_t := 1; depth_t := 1;
                result_t := copied [lparen] ++ inserted [newline]
                            ++ inserted two_spaces |});
      [|reflexivity|reflexivity].
    apply (reach_step (lit "(a   b)") initial_t); [|reflexivity|reflexivity].
    apply reach_initial. }
  assert (Hr' : reachable (lit "(a" ++ [newline; space] ++ lit "b)")
                  {| i_t := 3; depth_t := 1;
                     result_t := copied [lparen] ++ inserted [newline]
                                 ++ inserted two_spaces ++ copied (lit "a")
                                 ++ copied [newline] |}).
  { apply (reach_step (lit "(a" ++ [newline; space] ++ lit "b)")
             {| i_t := 2; depth_t := 1;
                result_t := copied [lparen] ++ inserted [newline]
                            ++ inserted two_spaces ++ copied (lit "a") |});
      [|reflexivity|reflexivity].
    apply (reach_step (lit "(a" ++ [newline; space] ++ lit "b)")
             {| i_t := 1; depth_t := 1;
                result_t := copied [lparen] ++ inserted [newline]
                            ++ inserted two_spaces |});
      [|reflexivity|reflexivity].
    apply (reach_step (lit "(a" ++ [newline; space] ++ lit "b)") initial_t);
      [|reflexivity|reflexivity].
    apply reach_initial. }
  split; (split; [assumption|]).
  - apply (proj1 (space_breaks_line (lit "(a   b)") _ Hr eq_refl eq_refl)).
    vm_compute. discriminate.
  - exact (proj2 (space_breaks_line
                    (lit "(a" ++ [newline; space] ++ lit "b)") _ Hr'
                    eq_refl eq_refl) eq_refl).
Defined.

(** C4, as stated, fails on a line break followed by a space: the space
    is reached with a result that does not end with a line break the
    formatter inserted (the line break before it is the input's own, and
    was copied), and yet it is copied, not turned into a line break. *)
Lemma space_rule_counterexample :
  reachable [newline; space]
    {| i_t := 1; depth_t := 0; result_t := copied [newline] |}
  /\ 1 < len [newline; space]
  /\ char_at [newline; space] 1 = Some space
  /\ ends_with_inserted_newline (copied [newline]) = false
  /\ exists st',
       for_body_t [newline; space]
         {| i_t := 1; depth_t := 0; result_t := copied [newline] |}
       = Normal st'
       /\ result_t st' = copied [newline; space]
       /\ ~ space_rule [newline; space]
              {| i_t := 1; depth_t := 0; result_t := copied [newline] |}
              st'.
Proof.
  split.
  { apply (reach_step [newline; space] initial_t);
      [|reflexivity|reflexivity].
    apply reach_initial. }
  split; [reflexivity|]. split; [reflexivity|]. split; [reflexivity|].
  eexists. split; [reflexivity|]. split; [reflexivity|].
  intros [H _]. vm_compute in H. discriminate.
Qed.

(** ** Parentheses on lines of their own *)

Lemma tree_ind (P : tree -> Prop) :
  (forall label, P (Token label)) ->
  (forall items, Forall P items -> P (Node items)) ->
  forall t, P t.
Proof.
  intros HT HN. fix IH 1. intros [label|items].
  - apply HT.
  - apply HN. induction items as [|t items IHitems]; constructor.
    + apply IH.
    + exact IHitems.
Qed.

Lemma lines_single (cur : js_string) :
  no_newline cur = true -> lines cur = [cur].
Proof.
  induction cur as [|u cur IH]; intros H; [reflexivity|].
  cbn [no_newline forallb] in H. apply andb_true_iff in H as [Hu H].
  cbn [lines]. apply negb_true_iff in Hu. rewrite Hu.
  now rewrite (IH H).
Qed.

Lemma lines_break (cur rest : js_string) :
  no_newline cur = true ->
  lines (cur ++ newline :: rest) = cur :: lines rest.
Proof.
  induction cur as [|u cur IH]; intros H; cbn [app lines].
  - reflexivity.
  - cbn [no_newline forallb] in H. apply andb_true_iff in H as [Hu H].
    apply negb_true_iff in Hu. rewrite Hu. now rewrite (IH H).
Qed.

Lemma no_newline_app (a b : js_string) :
  no_newline (a ++ b) = no_newline a && no_newline b.
Proof. apply forallb_app. Qed.

Lemma no_newline_indentation (d : nat) : no_newline (indentation d) = true.
Proof. induction d as [|d IH]; [reflexivity|exact IH]. Qed.

Lemma no_paren_indentation (d : nat) :
  existsb is_paren (indentation d) = false.
Proof. induction d as [|d IH]; [reflexivity|exact IH]. Qed.

Lemma paren_lines_break (cur rest : js_string) :
  no_newline cur = true ->
  paren_lines (cur ++ newline :: rest)
  = (if existsb is_paren cur then [cur] else []) ++ paren_lines rest.
Proof.
  intros H. unfold paren_lines. rewrite (lines_break _ _ H).
  cbn [filter]. now destruct (existsb is_paren cur).
Qed.

Lemma existsb_is_paren_app (a b : js_string) :
  existsb is_paren (a ++ b) = existsb is_paren a || existsb is_paren b.
Proof. apply existsb_app. Qed.

Lemma emit_paren_lines (s : js_string) :
  forall p d cur,
    tidy p d s = true ->
    no_newline cur = true ->
    existsb is_paren cur = closed p ->
    (fresh p = true -> cur = indentation d) ->
    exists r,
      emit (fun u => u) (fun u => u) (mark p) (Z.of_nat d) s = Normal r
      /\ paren_lines (cur ++ snd r)
         = (if closed p then [cur] else []) ++ own_lines d s.
Proof.
  induction s as [|u s IH]; intros p d cur Ht Hnl Hp Hf.
  - eexists. split; [reflexivity|]. cbn [snd own_lines].
    rewrite !app_nil_r. unfold paren_lines.
    rewrite (lines_single _ Hnl). cbn [filter]. rewrite Hp.
    now destruct (closed p).
  - cbn [tidy] in Ht. cbn [emit own_lines].
    destruct (N.eqb_spec u lparen) as [->|Hl].
    { apply andb_true_iff in Ht as [Hfr Ht].
      specialize (Hf Hfr). subst cur.
      rewrite str_repeat_nonneg by lia. cbn [bind].
      replace (Z.of_nat d + 1) with (Z.of_nat (S d)) by lia.
      rewrite Nat2Z.id.
      destruct (IH AtIndent (S d) (indentation (S d)) Ht
                  (no_newline_indentation _)
                  (no_paren_indentation _) (fun _ => eq_refl))
        as [r [Er Hr]].
      cbn [mark] in Er. rewrite Er. cbn [bind].
      eexists. split; [reflexivity|]. cbn [snd].
      replace (indentation d ++ [lparen] ++ [newline]
               ++ map (fun u => u) (indentation (S d)) ++ snd r)
        with ((indentation d ++ [lparen])
              ++ newline :: (indentation (S d) ++ snd r))
        by (rewrite map_id, <- !app_assoc; reflexivity).
      rewrite paren_lines_break
        by (rewrite no_newline_app, no_newline_indentation; reflexivity).
      rewrite existsb_is_paren_app, no_paren_indentation. cbn [orb existsb].
      change (is_paren lparen) with true. cbn [orb].
      rewrite Hr. cbn [closed app].
      destruct p; try discriminate; reflexivity. }
    destruct (N.eqb_spec u rparen) as [->|Hr].
    { apply andb_true_iff in Ht as [Hd Ht]. apply Nat.leb_le in Hd.
      replace (Z.of_nat d - 1) with (Z.of_nat (pred d)) by lia.
      rewrite str_repeat_nonneg by lia. cbn [bind]. rewrite Nat2Z.id.
      destruct (IH Closed (pred d) (indentation (pred d) ++ [rparen]) Ht)
        as [r [Er Hr']].
      { rewrite no_newline_app, no_newline_indentation; reflexivity. }
      { rewrite existsb_is_paren_app, no_paren_indentation; reflexivity. }
      { discriminate. }
      cbn [mark] in Er. rewrite Er. cbn [bind].
      eexists. split; [reflexivity|]. cbn [snd].
      replace (cur ++ [newline] ++ map (fun u => u) (indentation (pred d))
               ++ [rparen] ++ snd r)
        with (cur ++ newline
                  :: ((indentation (pred d) ++ [rparen]) ++ snd r))
        by (rewrite map_id, <- !app_assoc; reflexivity).
      rewrite (paren_lines_break _ _ Hnl), Hp, Hr'. cbn [closed app].
      reflexivity. }
    destruct (N.eqb_spec u space) as [->|Hs].
    { destruct (IH AtBreak d (indentation d) Ht
                  (no_newline_indentation _)
                  (no_paren_indentation _) (fun _ => eq_refl))
        as [r [Er Hr']].
      cbn [mark closed app] in Er, Hr'.
      destruct p; cbn [mark].
      - rewrite str_repeat_nonneg by lia. cbn [bind].
        rewrite Er. cbn [bind]. eexists. split; [reflexivity|].
        cbn [snd closed app]. rewrite Nat2Z.id, map_id.
        rewrite (paren_lines_break _ _ Hnl), Hp. exact Hr'.
      - rewrite (Hf eq_refl). eexists. split; [exact Er|exact Hr'].
      - rewrite str_repeat_nonneg by lia. cbn [bind].
        rewrite Er. cbn [bind]. eexists. split; [reflexivity|].
        cbn [snd closed app]. rewrite Nat2Z.id, map_id.
        rewrite (paren_lines_break _ _ Hnl), Hp. exact Hr'.
      - rewrite str_repeat_nonneg by lia. cbn [bind].
        rewrite Er. cbn [bind]. eexists. split; [reflexivity|].
        cbn [snd closed app]. rewrite Nat2Z.id, map_id.
        rewrite (paren_lines_break _ _ Hnl), Hp. cbn [closed app].
        now rewrite Hr'. }
    destruct (N.eqb_spec u newline) as [->|Hn]; [discriminate|].
    apply andb_true_iff in Ht as [Hc Ht]. apply negb_true_iff in Hc.
    destruct (IH InToken d (cur ++ [u]) Ht) as [r [Er Hr']].
    { rewrite no_newline_app, Hnl. cbn [no_newline forallb andb].
      apply N.eqb_neq in Hn. now rewrite Hn. }
    { rewrite existsb_is_paren_app, Hp, Hc. cbn [existsb orb closed].
      unfold is_paren.
      apply N.eqb_neq in Hl, Hr. now rewrite Hl, Hr. }
    { discriminate. }
    cbn [mark closed app] in Er, Hr'.
    rewrite Er. cbn [bind]. eexists. split; [reflexivity|].
    cbn [snd]. rewrite Hc. cbn [app].
    change (cur ++ u :: snd r) with (cur ++ [u] ++ snd r).
    now rewrite app_assoc.
Qed.

Lemma tidy_label (label rest : js_string) (p : place) (d : nat) :
  match label with [] => false | _ => forallb label_char label end = true ->
  closed p = false ->
  tidy p d (label ++ rest) = tidy InToken d rest.
Proof.
  destruct label as [|u label]; [discriminate|].
  revert u p. induction label as [|v label IH]; intros u p H Hp;
    cbn [forallb] in H; apply andb_true_iff in H as [Hu H];
    unfold label_char in Hu; apply negb_true_iff in Hu;
    apply orb_false_iff in Hu as [Hu Hnl];
    apply orb_false_iff in Hu as [Hu Hsp];
    apply orb_false_iff in Hu as [Hl Hr];
    cbn [app tidy]; rewrite Hl, Hr, Hsp, Hnl, Hp; cbn [negb andb].
  - reflexivity.
  - apply (IH v InToken); [exact H|reflexivity].
Qed.

Lemma tidy_serialize (t : tree) :
  well_formed t = true ->
  forall p d rest,
    fresh p = true ->
    tidy (behind t) d rest = true ->
    tidy p d (serialize t ++ rest) = true.
Proof.
  induction t as [label|items IH] using tree_ind;
    intros Hwf p d rest Hp Hrest; cbn [serialize behind] in *.
  - rewrite (tidy_label label rest p d Hwf); [exact Hrest|].
    now destruct p.
  - cbn [well_formed] in Hwf. cbn [app tidy].
    change (N.eqb lparen lparen) with true. cbv iota.
    rewrite Hp. cbn [andb]. rewrite <- app_assoc.
    assert (Hitems : forall q, fresh q = true ->
              tidy q (S d) (join (map serialize items) ++ [rparen] ++ rest)
              = true).
    { clear p Hp.
      induction items as [|t items IHitems]; intros q Hq.
      - cbn [map join app tidy].
        change (N.eqb rparen lparen) with false.
        change (N.eqb rparen rparen) with true. cbv iota.
        exact Hrest.
      - cbn [forallb] in Hwf. apply andb_true_iff in Hwf as [Hwt Hwf].
        inversion IH as [|t' items' IHt IHrest]; subst.
        specialize (IHitems IHrest Hwf).
        destruct items as [|t2 items].
        + cbn [map join]. apply (IHt Hwt); [exact Hq|].
          destruct t; cbn [behind app tidy];
            change (N.eqb rparen lparen) with false;
            change (N.eqb rparen rparen) with true; cbv iota;
            exact Hrest.
        + change (join (map serialize (t :: t2 :: items)))
            with (serialize t ++ [space]
                  ++ join (map serialize (t2 :: items))).
          rewrite <- !app_assoc.
          apply (IHt Hwt); [exact Hq|].
          destruct t; cbn [behind app tidy];
            change (N.eqb space lparen) with false;
            change (N.eqb space rparen) with false;
            change (N.eqb space space) with true; cbv iota;
            apply IHitems; reflexivity. }
    apply Hitems. reflexivity.
Qed.

(** Each of [own_lines] is an indentation prefix and one parenthesis,
    and they are the parentheses of the input, in order. *)
Lemma own_lines_shape (s : js_string) :
  forall d, Forall (fun l => exists d' u, is_paren u = true
                                         /\ l = indentation d' ++ [u])
                   (own_lines d s).
Proof.
  induction s as [|u s IH]; intros d; cbn [own_lines]; [constructor|].
  destruct (N.eqb u lparen).
  { constructor; [|apply IH]. exists d, lparen. split; reflexivity. }
  destruct (N.eqb u rparen).
  { constructor; [|apply IH]. exists (pred d), rparen. split; reflexivity. }
  apply IH.
Qed.

Lemma own_lines_parens (s : js_string) :
  forall d, map (fun l => last l space) (own_lines d s) = filter is_paren s.
Proof.
  induction s as [|u s IH]; intros d; cbn [own_lines filter]; [reflexivity|].
  unfold is_paren at 1.
  destruct (N.eqb_spec u lparen) as [->|Hl]; cbn [orb map].
  { now rewrite last_last, IH. }
  destruct (N.eqb_spec u rparen) as [->|Hr]; cbn [orb map].
  { now rewrite last_last, IH. }
  apply IH.
Qed.

(** C3: in the output for the serialization of a tree, the lines on
    which a parenthesis occurs are, in order, one line for each
    parenthesis of the input, made of the indentation prefix of its depth
    followed by the parenthesis and nothing else. *)
Theorem parens_on_own_lines (t : tree) :
  well_formed t = true ->
  exists out, formatAST (serialize t) 0 = Normal out
              /\ paren_lines out = own_lines 0 (serialize t).
Proof.
  intros Hwf.
  assert (Ht : tidy AtIndent 0 (serialize t) = true).
  { rewrite <- (app_nil_r (serialize t)).
    apply (tidy_serialize t Hwf); [reflexivity|].
    now destruct t. }
  destruct (emit_paren_lines (serialize t) AtIndent 0 [] Ht
              eq_refl eq_refl (fun _ => eq_refl)) as [r [Er Hr]].
  exists (snd r). rewrite formatAST_emit.
  rewrite (str_repeat_nonneg 0) by lia. cbn [bind].
  cbn [mark] in Er. change (Z.of_nat 0) with 0 in Er. rewrite Er.
  split; [reflexivity|exact Hr].
Qed.

Lemma parens_on_own_lines_witness :
  well_formed (Node [Token (lit "a"); Node [Token (lit "b")];
                     Node [Token (lit "c"); Token (lit "d")]]) = true
  /\ serialize (Node [Token (lit "a"); Node [Token (lit "b")];
                      Node [Token (lit "c"); Token (lit "d")]])
     = lit "(a (b) (c d))"
  /\ exists out,
       formatAST (lit "(a (b) (c d))") 0 = Normal out
       /\ paren_lines out = own_lines 0 (lit "(a (b) (c d))").
Proof.
  split; [reflexivity|]. split; [reflexivity|].
  apply (parens_on_own_lines
           (Node [Token (lit "a"); Node [Token (lit "b")];
                  Node [Token (lit "c"); Token (lit "d")]])).
  reflexivity.
Defined.

(** Outside that format the property can fail: two nodes that no space
    separates share a line. *)
Remark adjacent_nodes_share_a_line :
  formatAST (lit "(a)(b)") 0
  = Normal (unlines (map lit ["("; "  a"; ")("; "  b"; ")"])).
Proof. reflexivity. Qed.

(* ================================================================= *)
(** * Further properties of [formatAST] *)

(** ** How a call ends *)

(** With an integer count that the engine can hold, a call of
    [formatAST] returns exactly when the count is not negative and no
    prefix of the input closes more parentheses than it opens; in every
    other case it throws a RangeError. *)
Lemma formatAST_outcome (ast : js_string) (indent : Z) :
  ((exists out, formatAST ast indent = Normal out)
   <-> 0 <= indent /\ never_negative ast = true)
  /\ (formatAST ast indent = Throw RangeError
      <-> indent < 0 \/ never_negative ast = false).
Proof.
  split; [apply formatAST_returns_iff|].
  rewrite formatAST_emit. split.
  - intros H.
    destruct (Z.ltb_spec indent 0) as [Hi|Hi]; [now left|right].
    destruct (never_negative ast) eqn:E; [|reflexivity].
    rewrite str_repeat_nonneg in H by exact Hi. cbn [bind] in H.
    destruct (emit_returns (fun u => u) (fun u => u) ast AfterOther 0)
      as [out Hout]; [lia|exact E|].
    rewrite Hout in H. discriminate.
  - intros [Hi|Hn].
    + now rewrite str_repeat_neg.
    + destruct (Z.ltb_spec indent 0) as [Hi|Hi].
      * now rewrite str_repeat_neg.
      * rewrite str_repeat_nonneg by exact Hi. cbn [bind].
        now rewrite emit_throws by (trivial; lia).
Qed.

(** The prefix of spaces decides first: a count that [repeat] takes
    leaves the call as the call with 0, any other makes it throw. *)
Lemma formatAST_number_cases (max_length : Z) (ast : js_string)
      (n : js_number) :
  0 <= max_length ->
  (accepted max_length n
   /\ formatAST_number max_length ast n = formatAST ast 0)
  \/ (~ accepted max_length n
      /\ formatAST_number max_length ast n = Throw RangeError).
Proof.
  intros Hmax. destruct n as [q| | |]; cbn [accepted].
  - destruct (Qlt_le_dec (-1) q) as [Hq|Hq].
    + assert (Hnn : 0 <= truncate q).
      { destruct (Z.lt_ge_cases (truncate q) 0) as [Hneg|Hge]; [|exact Hge].
        apply truncate_negative in Hneg.
        exfalso. exact (Qlt_not_le _ _ Hq Hneg). }
      destruct (Z_le_gt_dec (2 * truncate q) max_length) as [Hk|Hk].
      * left. split; [now split|].
        rewrite (formatAST_number_integer max_length ast (Finite q)
                   (truncate q)) by (trivial; reflexivity).
        now apply formatAST_indent_irrelevant.
      * right. split; [intros [_ H]; lia|].
        unfold formatAST_number, repeat_number.
        cbn [ToIntegerOrInfinity]. change (len two_spaces) with 2.
        destruct (Z.ltb_spec (truncate q) 0); [reflexivity|].
        destruct (Z.ltb_spec max_length (2 * truncate q)); [reflexivity|lia].
    + right. split; [intros [H _]; exact (Qlt_not_le _ _ H Hq)|].
      apply truncate_negative in Hq.
      unfold formatAST_number, repeat_number.
      cbn [ToIntegerOrInfinity].
      destruct (Z.ltb_spec (truncate q) 0); [reflexivity|lia].
  - right. split; [intros []|reflexivity].
  - right. split; [intros []|reflexivity].
  - left. split; [exact I|].
    now rewrite (formatAST_number_integer max_length ast NaN 0)
      by (trivial; lia).
Qed.

(** X1: how a call of [formatAST] with a Number for [indent] ends.  It
    ends: it returns or it throws a RangeError.  A call that returns was
    given a count that ['  '.repeat] takes and an input no prefix of
    which closes more parentheses than it opens; a call for which one of
    the two fails throws a RangeError. *)
Theorem formatAST_number_outcome (max_length : Z) (ast : js_string)
        (n : js_number) :
  0 <= max_length ->
  ((exists out, formatAST_number max_length ast n = Normal out) ->
   accepted max_length n /\ never_negative ast = true)
  /\ (~ accepted max_length n \/ never_negative ast = false ->
      formatAST_number max_length ast n = Throw RangeError)
  /\ formatAST_number max_length ast n <> OutOfFuel.
Proof.
  intros Hmax.
  destruct (formatAST_outcome ast 0) as [Hret Hthr].
  destruct (formatAST_number_cases max_length ast n Hmax)
    as [[Ha E]|[Hna E]]; rewrite E.
  - split; [|split].
    + intros Hex. apply Hret in Hex as [_ Hn]. now split.
    + intros [H|H]; [contradiction|]. apply Hthr. now right.
    + apply formatAST_total.
  - split; [|split].
    + intros [out H]. discriminate.
    + reflexivity.
    + discriminate.
Qed.

Lemma formatAST_number_outcome_witness :
  0 <= 536870888
  /\ formatAST_number 536870888 (lit "(a))") (Finite (1 # 3))
     = Throw RangeError
  /\ formatAST_number 536870888 (lit "(a)") (Finite (-7 # 1))
     = Throw RangeError
  /\ formatAST_number 536870888 (lit "(a)") (Finite (-1 # 2))
     = Normal (unlines (map lit ["("; "  a"; ")"])).
Proof.
  assert (Hmax : 0 <= 536870888) by lia.
  split; [exact Hmax|]. split; [|split].
  - apply (proj1 (proj2 (formatAST_number_outcome
                           536870888 (lit "(a))") (Finite (1 # 3)) Hmax))).
    right. reflexivity.
  - apply (proj1 (proj2 (formatAST_number_outcome
                           536870888 (lit "(a)") (Finite (-7 # 1)) Hmax))).
    left. intros [H _]. vm_compute in H. discriminate.
  - reflexivity.
Defined.

(** ** Runs of spaces *)

Lemma emit_squeeze (s : js_string) :
  no_newline s = true ->
  forall d,
    emit (fun u => u) (fun u => u) InRun d (squeeze_from true s)
    = emit (fun u => u) (fun u => u) InRun d s
    /\ emit (fun u => u) (fun u => u) AfterOther d (squeeze_from false s)
       = emit (fun u => u) (fun u => u) AfterOther d s.
Proof.
  induction s as [|u s IH]; intros Hnl d; [split; reflexivity|].
  cbn [no_newline forallb] in Hnl. apply andb_true_iff in Hnl as [Hu Hnl].
  apply negb_true_iff in Hu. specialize (IH Hnl).
  cbn [squeeze_from].
  destruct (N.eqb_spec u space) as [->|Hs].
  - cbn [emit].
    change (N.eqb space lparen) with false.
    change (N.eqb space rparen) with false.
    change (N.eqb space space) with true. cbv iota.
    destruct (IH d) as [IH1 _]. split; [exact IH1|].
    now rewrite IH1.
  - apply N.eqb_neq in Hs. cbn [emit]. rewrite Hs, Hu.
    assert (E : forall d',
               emit (fun u => u) (fun u => u) AfterOther d' (squeeze_from false s)
               = emit (fun u => u) (fun u => u) AfterOther d' s)
      by (intros d'; apply IH).
    rewrite !E. split; reflexivity.
Qed.

(** X3: on an input without line breaks the length of a run of spaces
    does not matter: the input with each run shortened to a single space
    gives the same result. *)
Theorem formatAST_squeeze (s : js_string) (indent : Z) :
  no_newline s = true ->
  formatAST (squeeze s) indent = formatAST s indent.
Proof.
  intros Hnl. rewrite !formatAST_emit. unfold squeeze.
  destruct (emit_squeeze s Hnl 0) as [_ E]. now rewrite E.
Qed.

Lemma formatAST_squeeze_witness :
  no_newline (lit "(a    (b   c)  )") = true
  /\ squeeze (lit "(a    (b   c)  )") = lit "(a (b c) )"
  /\ formatAST (lit "(a (b c) )") 0 = formatAST (lit "(a    (b   c)  )") 0.
Proof.
  split; [reflexivity|]. split; [reflexivity|].
  apply (formatAST_squeeze (lit "(a    (b   c)  )") 0). reflexivity.
Defined.

(** ** The output for a serialized tree *)

Lemma label_char_false (u : code_unit) :
  label_char u = true ->
  N.eqb u lparen = false /\ N.eqb u rparen = false
  /\ N.eqb u space = false /\ N.eqb u newline = false.
Proof.
  unfold label_char. intros H. apply negb_true_iff in H.
  apply orb_false_iff in H as [H Hnl].
  apply orb_false_iff in H as [H Hsp].
  apply orb_false_iff in H as [Hl Hr]. auto.
Qed.

Lemma emit_label (label rest : js_string) (d : Z) (r : Z * js_string) :
  forallb label_char label = true ->
  emit (fun u => u) (fun u => u) AfterOther d rest = Normal r ->
  forall b, label <> [] ->
    emit (fun u => u) (fun u => u) b d (label ++ rest)
    = Normal (fst r, label ++ snd r).
Proof.
  intros Hl Hrest.
  induction label as [|u label IH]; intros b Hne; [contradiction|].
  cbn [forallb] in Hl. apply andb_true_iff in Hl as [Hu Hl].
  destruct (label_char_false u Hu) as [E1 [E2 [E3 E4]]].
  cbn [app emit]. rewrite E1, E2, E3, E4.
  destruct label as [|v label].
  - cbn [app]. rewrite Hrest. reflexivity.
  - rewrite (IH Hl AfterOther) by discriminate. reflexivity.
Qed.

(** The serialization of a well-formed tree does not start with a
    space. *)
Lemma lead_serialize (t : tree) (rest : js_string) :
  well_formed t = true -> lead (serialize t ++ rest) = O.
Proof.
  destruct t as [label|items]; cbn [well_formed serialize]; intros H.
  - destruct label as [|u label]; [discriminate|].
    cbn [forallb] in H. apply andb_true_iff in H as [Hu _].
    destruct (label_char_false u Hu) as [_ [_ [E _]]].
    cbn [app lead]. now rewrite E.
  - reflexivity.
Qed.

Lemma emit_serialize (t : tree) :
  well_formed t = true ->
  forall (d : nat) (rest : js_string) (r : Z * js_string),
    emit (fun u => u) (fun u => u) AfterOther (Z.of_nat d) rest = Normal r ->
    forall b,
      emit (fun u => u) (fun u => u) b (Z.of_nat d) (serialize t ++ rest)
      = Normal (fst r, render d t ++ snd r).
Proof.
  induction t as [label|items IH] using tree_ind;
    intros Hwf d rest r Hrest b; cbn [serialize render well_formed] in *.
  - destruct label as [|u label]; [discriminate|].
    apply emit_label; [exact Hwf|exact Hrest|discriminate].
  - assert (Hclose :
              forall b',
                emit (fun u => u) (fun u => u) b' (Z.of_nat (S d))
                  ([rparen] ++ rest)
                = Normal (fst r, line_break d ++ [rparen] ++ snd r)).
    { intros b'. cbn [app emit].
      change (N.eqb rparen lparen) with false.
      change (N.eqb rparen rparen) with true. cbv iota.
      replace (Z.of_nat (S d) - 1) with (Z.of_nat d) by lia.
      rewrite str_repeat_nonneg by lia. cbn [bind].
      rewrite Hrest. cbn [bind]. rewrite Nat2Z.id, map_id. reflexivity. }
    assert (Hitems :
              forall b',
                emit (fun u => u) (fun u => u) b' (Z.of_nat (S d))
                  (join (map serialize items) ++ [rparen] ++ rest)
                = Normal (fst r,
                          join_with (line_break (S d))
                            (map (render (S d)) items)
                          ++ line_break d ++ [rparen] ++ snd r)).
    { clear b.
      induction items as [|t items IHitems]; intros b'.
      - exact (Hclose b').
      - cbn [forallb] in Hwf. apply andb_true_iff in Hwf as [Hwt Hwf].
        inversion IH as [|t' items' IHt IHrest]; subst.
        specialize (IHitems IHrest Hwf).
        destruct items as [|t2 items].
        + cbn [map join join_with].
          rewrite (IHt Hwt (S d) _ _ (Hclose AfterOther)).
          cbn [fst snd]. reflexivity.
        + change (join (map serialize (t :: t2 :: items)))
            with (serialize t ++ [space]
                  ++ join (map serialize (t2 :: items))).
          change (join_with (line_break (S d))
                    (map (render (S d)) (t :: t2 :: items)))
            with (render (S d) t ++ line_break (S d)
                  ++ join_with (line_break (S d))
                       (map (render (S d)) (t2 :: items))).
          rewrite <- ?app_assoc.
          assert (Hsp :
                    emit (fun u => u) (fun u => u) AfterOther
                      (Z.of_nat (S d))
                      ([space] ++ join (map serialize (t2 :: items))
                       ++ [rparen] ++ rest)
                    = Normal (fst r,
                              line_break (S d)
                              ++ join_with (line_break (S d))
                                   (map (render (S d)) (t2 :: items))
                              ++ line_break d ++ [rparen] ++ snd r)).
          { cbn [app emit].
            change (N.eqb space lparen) with false.
            change (N.eqb space rparen) with false.
            change (N.eqb space space) with true. cbv iota.
            rewrite str_repeat_nonneg by lia. cbn [bind].
            change (join (map serialize (t2 :: items)) ++ rparen :: rest)
              with (join (map serialize (t2 :: items)) ++ [rparen] ++ rest).
            rewrite (IHitems InRun). cbn [bind fst snd].
            rewrite Nat2Z.id, map_id. reflexivity. }
          rewrite (IHt Hwt (S d) _ _ Hsp). cbn [fst snd].
          rewrite <- ?app_assoc. reflexivity. }
    cbn [app emit].
    change (N.eqb lparen lparen) with true. cbv iota.
    replace (Z.of_nat d + 1) with (Z.of_nat (S d)) by lia.
    rewrite str_repeat_nonneg by lia. cbn [bind].
    rewrite <- ?app_assoc. rewrite (Hitems AfterOther). cbn [bind fst snd].
    rewrite Nat2Z.id, map_id. unfold line_break.
    rewrite <- ?app_assoc. reflexivity.
Qed.

(** X2: on the serialization of a well-formed tree, [formatAST] returns
    the indented rendering of the tree: every token and every
    parenthesis on a line of its own, each at the indentation of its
    depth. *)
Theorem formatAST_renders (t : tree) :
  well_formed t = true ->
  formatAST (serialize t) 0 = Normal (render 0 t).
Proof.
  intros Hwf. rewrite formatAST_emit.
  rewrite (str_repeat_nonneg 0) by lia. cbn [bind].
  rewrite <- (app_nil_r (serialize t)).
  change 0 with (Z.of_nat 0).
  rewrite (emit_serialize t Hwf 0 [] (0, [])) by reflexivity.
  cbn [bind fst snd]. now rewrite !app_nil_r.
Qed.

Lemma formatAST_renders_witness :
  well_formed (Node [Token (lit "call"); Node [Token (lit "f")]; Node []])
  = true
  /\ formatAST (lit "(call (f) ())") 0
     = Normal (unlines (map lit ["("; "  call"; "  ("; "    f"; "  )";
                                 "  ("; "    "; "  )"; ")"])).
Proof.
  split; [reflexivity|].
  apply (formatAST_renders
           (Node [Token (lit "call"); Node [Token (lit "f")]; Node []])).
  reflexivity.
Defined.

(* ================================================================= *)
(** * The script *)

(** With its default count, [formatAST] returns on an input whose depth
    never goes negative and throws a RangeError on any other. *)
Lemma formatAST_default_cases (s : js_string) :
  (never_negative s = true /\ exists out, formatAST s 0 = Normal out)
  \/ (never_negative s = false /\ formatAST s 0 = Throw RangeError).
Proof.
  rewrite formatAST_emit, (str_repeat_nonneg 0) by lia. cbn [bind].
  destruct (never_negative s) eqn:E.
  - left. split; [reflexivity|].
    destruct (emit_returns (fun u => u) (fun u => u) s AfterOther 0)
      as [out ->]; [lia|exact E|].
    now exists out.
  - right. split; [reflexivity|].
    now rewrite emit_throws by (trivial; lia).
Qed.

(** The events of the [try] block: nothing, or one write, or one write
    and the two success lines. *)
Lemma try_body_writes (e : env) (filePath file data : js_string) :
  In (WriteFileSync file data) (fst (try_body e filePath)) ->
  exists code astString formattedAST,
    newParser e = None
    /\ readFileSync e filePath = inl code
    /\ parse e code = inl astString
    /\ formatAST astString 0 = Normal formattedAST
    /\ file = output_file e filePath
    /\ data = report filePath (now e) formattedAST.
Proof.
  unfold try_body.
  destruct (newParser e) eqn:En; [intros []|].
  destruct (readFileSync e filePath) as [code|] eqn:Er; [|intros []].
  destruct (parse e code) as [astString|] eqn:Ep; [|intros []].
  destruct (formatAST astString 0) as [formattedAST| |] eqn:Ef;
    [|intros []|intros []].
  intros H. exists code, astString, formattedAST.
  assert (Hw : WriteFileSync (output_file e filePath)
                 (report filePath (now e) formattedAST)
               = WriteFileSync file data).
  { destruct (writeFileSync e _ _); cbn [fst In] in H.
    - destruct H as [H|[]]; exact H.
    - destruct H as [H|[H|[H|[]]]]; try discriminate; exact H. }
  injection Hw as <- <-. repeat split; trivial.
Qed.

Lemma try_body_one_write (e : env) (filePath : js_string) :
  (length (filter is_write (fst (try_body e filePath))) <= 1)%nat.
Proof.
  unfold try_body.
  destruct (newParser e); [simpl; lia|].
  destruct (readFileSync e filePath) as [code|]; [|simpl; lia].
  destruct (parse e code) as [astString|]; [|simpl; lia].
  destruct (formatAST astString 0); [|simpl; lia|simpl; lia].
  destruct (writeFileSync e _ _); simpl; lia.
Qed.

(** How [script] unfolds once its two checks have passed. *)
Lemma script_checked (e : env) (filePath : js_string) :
  argv2 e = Some filePath -> filePath <> [] ->
  existsSync e filePath = true ->
  script e
  = let made :=
      if negb (existsSync e (outputDir e))
      then ([MkdirSync (outputDir e)], mkdirSync e (outputDir e))
      else ([], None) in
    match snd made with
    | Some m => (fst made, Uncaught m)
    | None =>
        match try_body e filePath with
        | (events, Done) => (fst made ++ events, Returned)
        | (events, Caught m) =>
            (fst made ++ events
             ++ [ConsoleError (lit "Parse error:" ++ [space] ++ m)],
             Exit 1)
        | (events, Fuel) => (fst made ++ events, NoFuel)
        end
    end.
Proof.
  intros Ha Hne He. unfold script. rewrite Ha, He.
  destruct filePath; [contradiction|reflexivity].
Qed.

(** X4: the script writes at most one file, and only a complete report:
    whenever it calls [writeFileSync], the file named by the argument
    was read, the parser returned a tree, [formatAST] returned on it, and
    the data written are the two header lines, a blank line and that
    formatted tree, under the name made from the argument. *)
Theorem script_writes_complete_report (e : env) (file data : js_string) :
  In (WriteFileSync file data) (fst (script e)) ->
  (length (filter is_write (fst (script e))) <= 1)%nat
  /\ exists filePath code astString formattedAST,
       argv2 e = Some filePath
       /\ existsSync e filePath = true
       /\ readFileSync e filePath = inl code
       /\ parse e code = inl astString
       /\ formatAST astString 0 = Normal formattedAST
       /\ file = output_file e filePath
       /\ data = report filePath (now e) formattedAST.
Proof.
  unfold script.
  destruct (argv2 e) as [filePath|] eqn:Ha;
    [|intros [H|[]]; discriminate].
  destruct filePath as [|u filePath]; [intros [H|[]]; discriminate|].
  destruct (existsSync e (u :: filePath)) eqn:He; cbn [negb];
    [|intros [H|[]]; discriminate].
  set (made := if negb (existsSync e (outputDir e))
               then ([MkdirSync (outputDir e)], mkdirSync e (outputDir e))
               else ([], None)).
  assert (Hmade : filter is_write (fst made) = []
                  /\ ~ In (WriteFileSync file data) (fst made)).
  { unfold made. destruct (existsSync e (outputDir e)); cbn; split; trivial.
    - tauto.
    - intros [H|[]]; discriminate. }
  destruct Hmade as [Hm1 Hm2].
  pose proof (try_body_writes e (u :: filePath) file data) as Hw.
  pose proof (try_body_one_write e (u :: filePath)) as H1.
  destruct (snd made) as [m|]; cbn [fst]; [contradiction|].
  assert (Hin : In (WriteFileSync file data)
                  (fst (try_body e (u :: filePath))) ->
                exists filePath0 code astString formattedAST,
                  Some (u :: filePath) = Some filePath0
                  /\ existsSync e filePath0 = true
                  /\ readFileSync e filePath0 = inl code
                  /\ parse e code = inl astString
                  /\ formatAST astString 0 = Normal formattedAST
                  /\ file = output_file e filePath0
                  /\ data = report filePath0 (now e) formattedAST).
  { intros H. destruct (Hw H) as [code [ast [out [_ [Hr [Hp [Hf [E1 E2]]]]]]]].
    exists (u :: filePath), code, ast, out. auto 10. }
  destruct (try_body e (u :: filePath)) as [events [|m|]]; cbn [fst] in *;
    rewrite ?filter_app, ?length_app, Hm1; cbn [length filter app is_write];
    intros H; repeat (apply in_app_or in H as [H|H]; try contradiction);
    try (split; [lia|now apply Hin]).
  destruct H as [H|[]]; discriminate.
Qed.

Lemma script_writes_complete_report_witness :
  In (WriteFileSync (lit "parse_results/a.txt")
        (report (lit "a.js") (lit "2026-01-01T00:00:00.000Z")
           (unlines (map lit ["("; "  program"; "  ("; "    x"; "  )"; ")"]))))
     (fst (script fair_env))
  /\ (length (filter is_write (fst (script fair_env))) <= 1)%nat.
Proof.
  assert (H : In (WriteFileSync (lit "parse_results/a.txt")
                    (report (lit "a.js") (lit "2026-01-01T00:00:00.000Z")
                       (unlines (map lit ["("; "  program"; "  (";
                                          "    x"; "  )"; ")"]))))
                (fst (script fair_env))).
  { vm_compute. right. left. reflexivity. }
  split; [exact H|].
  exact (proj1 (script_writes_complete_report fair_env _ _ H)).
Defined.

(** X5: when the tree the parser returns closes more nodes than it has
    opened, the fault of [formatAST] is caught: the script reports
    ["Parse error: "] and the message of the fault on the error stream,
    exits with code 1, and writes no file (the output directory has been
    made by then if it was not there). *)
Theorem script_reports_format_fault
        (e : env) (filePath code astString : js_string) :
  argv2 e = Some filePath -> filePath <> [] ->
  existsSync e filePath = true ->
  existsSync e (outputDir e) = true \/ mkdirSync e (outputDir e) = None ->
  newParser e = None ->
  readFileSync e filePath = inl code ->
  parse e code = inl astString ->
  never_negative astString = false ->
  script e
  = ((if existsSync e (outputDir e) then [] else [MkdirSync (outputDir e)])
     ++ [ConsoleError (lit "Parse error: " ++ message e RangeError)],
     Exit 1).
Proof.
  intros Ha Hne He Hd Hn Hr Hp Hneg.
  rewrite (script_checked e filePath Ha Hne He).
  unfold try_body. rewrite Hn, Hr, Hp.
  destruct (formatAST_default_cases astString) as [[E _]|[_ ->]];
    [congruence|].
  destruct (existsSync e (outputDir e)); cbn [negb fst snd].
  - reflexivity.
  - destruct Hd as [Hd|Hd]; [discriminate|]. rewrite Hd. reflexivity.
Qed.

Lemma script_reports_format_fault_witness :
  never_negative (lit "(program))") = false
  /\ script unbalanced_env
     = ([MkdirSync (lit "parse_results");
         ConsoleError (lit "Parse error: Invalid count value: -1")],
        Exit 1).
Proof.
  split; [reflexivity|].
  apply (script_reports_format_fault unbalanced_env
           (lit "a.js") (lit "x;") (lit "(program))"));
    try reflexivity.
  - discriminate.
  - right; reflexivity.
Defined.

(** X6: the script comes to its end exactly when an argument that is
    not empty names a file that is there, the output directory is there
    or can be made, the file is read and parsed, the depth of the tree's
    text never goes negative, and the report is written; it then has
    written the report and printed its two lines.  In every other case
    it exits with code 1, unless [mkdirSync] throws, which nothing
    catches. *)
Theorem script_ending (e : env) :
  (snd (script e) = Returned
   <-> exists filePath code astString formattedAST,
         argv2 e = Some filePath /\ filePath <> []
         /\ existsSync e filePath = true
         /\ (existsSync e (outputDir e) = true
             \/ mkdirSync e (outputDir e) = None)
         /\ newParser e = None
         /\ readFileSync e filePath = inl code
         /\ parse e code = inl astString
         /\ never_negative astString = true
         /\ formatAST astString 0 = Normal formattedAST
         /\ writeFileSync e (output_file e filePath)
              (report filePath (now e) formattedAST) = None)
  /\ (snd (script e) = Returned
      \/ snd (script e) = Exit 1
      \/ exists m, snd (script e) = Uncaught m
                   /\ existsSync e (outputDir e) = false
                   /\ mkdirSync e (outputDir e) = Some m).
Proof.
  unfold script.
  destruct (argv2 e) as [filePath|] eqn:Ha.
  2:{ cbn [snd]. split; [|auto].
      split; [discriminate|]. intros [p [c [a [o [H _]]]]]. discriminate. }
  destruct filePath as [|u filePath].
  { cbn [snd]. split; [|auto].
    split; [discriminate|].
    intros [p [c [a [o [H [Hne _]]]]]]. injection H as <-. contradiction. }
  destruct (existsSync e (u :: filePath)) eqn:He; cbn [negb].
  2:{ cbn [snd]. split; [|auto].
      split; [discriminate|].
      intros [p [c [a [o [H [_ [He' _]]]]]]]. injection H as <-. congruence. }
  assert (Hbody :
            (snd (try_body e (u :: filePath)) = Done
             <-> exists code astString formattedAST,
                   newParser e = None
                   /\ readFileSync e (u :: filePath) = inl code
                   /\ parse e code = inl astString
                   /\ never_negative astString = true
                   /\ formatAST astString 0 = Normal formattedAST
                   /\ writeFileSync e (output_file e (u :: filePath))
                        (report (u :: filePath) (now e) formattedAST) = None)
            /\ snd (try_body e (u :: filePath)) <> Fuel).
  { unfold try_body.
    destruct (newParser e) eqn:En.
    { cbn [snd]. split; [|discriminate]. split; [discriminate|].
      intros [c [a [o [H _]]]]. discriminate. }
    destruct (readFileSync e (u :: filePath)) as [code|] eqn:Er.
    2:{ cbn [snd]. split; [|discriminate]. split; [discriminate|].
        intros [c [a [o [_ [H _]]]]]. discriminate. }
    destruct (parse e code) as [astString|] eqn:Ep.
    2:{ cbn [snd]. split; [|discriminate]. split; [discriminate|].
        intros [c [a [o [_ [H [H' _]]]]]]. injection H as <-. congruence. }
    destruct (formatAST_default_cases astString) as [[Hn [out Ho]]|[Hn Ho]];
      rewrite Ho.
    - destruct (writeFileSync e _ _) eqn:Ew; cbn [snd].
      + split; [|discriminate]. split; [discriminate|].
        intros [c [a [o [_ [H [H' [_ [Ho' Hw]]]]]]]].
        injection H as <-. rewrite Ep in H'. injection H' as <-.
        rewrite Ho in Ho'. injection Ho' as <-. congruence.
      + split; [|discriminate]. split; [|reflexivity].
        intros _. exists code, astString, out. auto 10.
    - cbn [snd]. split; [|discriminate]. split; [discriminate|].
      intros [c [a [o [_ [H [H' [Hn' _]]]]]]].
      injection H as <-. rewrite Ep in H'. injection H' as <-. congruence. }
  destruct Hbody as [Hdone Hfuel].
  destruct (existsSync e (outputDir e)) eqn:Ed; cbn [negb fst snd].
  - destruct (try_body e (u :: filePath)) as [events [|m|]]; cbn [snd] in *.
    + split; [|auto]. split; [|reflexivity]. intros _.
      destruct (proj1 Hdone eq_refl) as [c [a [o H]]].
      exists (u :: filePath), c, a, o.
      repeat split; try tauto. discriminate.
    + split; [|auto]. split; [discriminate|].
      intros [p [c [a [o [H [_ [_ [_ H']]]]]]]]. injection H as <-.
      assert (Caught m = Done); [|discriminate].
      apply Hdone. exists c, a, o. tauto.
    + contradiction.
  - destruct (mkdirSync e (outputDir e)) as [m|] eqn:Em; cbn [snd].
    + split.
      * split; [discriminate|].
        intros [p [c [a [o [_ [_ [_ [[H|H] _]]]]]]]]; discriminate.
      * right; right. exists m. auto.
    + destruct (try_body e (u :: filePath)) as [events [|m|]]; cbn [snd] in *.
      * split; [|auto]. split; [|reflexivity]. intros _.
        destruct (proj1 Hdone eq_refl) as [c [a [o H]]].
        exists (u :: filePath), c, a, o.
        repeat split; try tauto. discriminate.
      * split; [|auto]. split; [discriminate|].
        intros [p [c [a [o [H [_ [_ [_ H']]]]]]]]. injection H as <-.
        assert (Caught m = Done); [|discriminate].
        apply Hdone. exists c, a, o. tauto.
      * contradiction.
Qed.

(** X7: without an argument, with an empty one, or with one that names
    no file, the script prints one line on the error stream and exits
    with code 1; it makes no directory and writes no file. *)
Theorem script_bad_invocation (e : env) :
  (forall filePath, argv2 e = Some filePath ->
                    filePath = [] \/ existsSync e filePath = false) ->
  snd (script e) = Exit 1
  /\ filter changes_files (fst (script e)) = []
  /\ exists text, fst (script e) = [ConsoleError text].
Proof.
  intros H. unfold script.
  destruct (argv2 e) as [filePath|].
  - destruct (H filePath eq_refl) as [->|He].
    + repeat split. eexists; reflexivity.
    + destruct filePath; [repeat split; eexists; reflexivity|].
      rewrite He. repeat split. eexists; reflexivity.
  - repeat split. eexists; reflexivity.
Qed.

Lemma script_bad_invocation_witness :
  snd (script {| argv2 := Some (lit "b.js");
                 existsSync := existsSync fair_env;
                 outputDir := outputDir fair_env;
                 mkdirSync := mkdirSync fair_env;
                 newParser := newParser fair_env;
                 readFileSync := readFileSync fair_env;
                 parse := parse fair_env;
                 path_extname := path_extname fair_env;
                 path_basename := path_basename fair_env;
                 path_join := path_join fair_env;
                 now := now fair_env;
                 writeFileSync := writeFileSync fair_env;
                 message := message fair_env |}) = Exit 1.
Proof.
  refine (proj1 (script_bad_invocation _ _)).
  intros filePath H. injection H as <-. right. reflexivity.
Defined.

(* ================================================================= *)
(** * The sample file *)

(** ** [compose] and [pipe] *)

(** Composing a list of functions is piping the reversed list. *)
Lemma compose_is_pipe_rev {A : Type} (fns : list (A -> A)) (value : A) :
  compose fns value = pipe (rev fns) value.
Proof.
  unfold compose, pipe.
  rewrite <- (rev_involutive fns) at 1.
  now rewrite fold_left_rev_right.
Qed.

(** Piping one list of functions and then another is piping the two
    lists put together; for [compose] the second list is applied
    first; with no function at all both return their argument. *)
Lemma pipe_compose_app {A : Type} (fs gs : list (A -> A)) (value : A) :
  pipe (fs ++ gs) value = pipe gs (pipe fs value)
  /\ compose (fs ++ gs) value = compose fs (compose gs value)
  /\ pipe [] value = value /\ compose [] value = value.
Proof.
  unfold pipe, compose.
  rewrite fold_left_app, fold_right_app. repeat split.
Qed.

(** X8: [compose] applies the functions from the last to the first: the
    last function of the list is the first to be applied to the value,
    the first function of the list is applied to what the others return.
    [pipe] applies them from the first to the last: the first function
    of the list is the first to be applied, the last function is applied
    to what the others return.  With no function both return the value.
    Hence composing a list of functions is piping the reversed list, and
    [composed] and [piped] of the sample file, made of the same three
    functions in opposite orders, are the same function. *)
Theorem compose_pipe_order {A : Type} (fns : list (A -> A)) (f : A -> A)
        (value : A) :
  compose (fns ++ [f]) value = compose fns (f value)
  /\ compose (f :: fns) value = f (compose fns value)
  /\ pipe (f :: fns) value = pipe fns (f value)
  /\ pipe (fns ++ [f]) value = f (pipe fns value)
  /\ compose [] value = value
  /\ pipe [] value = value
  /\ compose fns value = pipe (rev fns) value
  /\ (forall square addTen double : A -> A,
        compose [square; addTen; double] value
        = pipe [double; addTen; square] value
        /\ compose [square; addTen; double] value
           = square (addTen (double value))).
Proof.
  destruct (pipe_compose_app fns [f] value) as [Hp [Hc _]].
  repeat split.
  - exact Hc.
  - exact Hp.
  - apply compose_is_pipe_rev.
Qed.

(** ** [curry] *)

Section CurryFacts.

Context {A R : Type} (fn : list A -> R) (arity : nat).

(** While the arguments are fewer than [fn.length], the calls return
    the function bound to all of them. *)
Lemma calls_bound (groups : list (list A)) :
  forall bound,
    (length (bound ++ concat groups) < arity)%nat ->
    calls fn arity (Bound bound) groups
    = Some (Bound (bound ++ concat groups)).
Proof.
  induction groups as [|g groups IH]; intros bound H; cbn [calls concat].
  - now rewrite app_nil_r.
  - cbn [concat] in H. cbn [call]. unfold call_curry.
    rewrite app_assoc in H.
    assert (Hg : (length (bound ++ g) < arity)%nat).
    { rewrite length_app in H. lia. }
    apply Nat.ltb_lt in Hg. rewrite Hg.
    rewrite (IH (bound ++ g) H). now rewrite app_assoc.
Qed.

Lemma calls_app (c : curried) (gs hs : list (list A)) :
  calls fn arity c (gs ++ hs)
  = match calls fn arity c gs with
    | Some c' => calls fn arity c' hs
    | None => None
    end.
Proof.
  revert c; induction gs as [|g gs IH]; intros c; cbn [app calls].
  - reflexivity.
  - destruct (call fn arity c g); [apply IH|reflexivity].
Qed.

(** X9: however the arguments are spread over the calls of
    [curry(fn)], empty calls included, [fn] is called at the first call
    that brings their number to [fn.length], with all of them, in
    order. *)
Theorem curry_groups (groups : list (list A)) (last_group : list A) :
  (groups <> [] -> (length (concat groups) < arity)%nat) ->
  (arity <= length (concat groups ++ last_group))%nat ->
  calls fn arity (curry (A := A) (R := R)) (groups ++ [last_group])
  = Some (Result (fn (concat groups ++ last_group))).
Proof.
  intros Hlt Hge. rewrite calls_app. unfold curry.
  assert (Hb : calls fn arity (Bound []) groups
               = Some (Bound (concat groups))).
  { destruct groups as [|g groups]; [reflexivity|].
    apply (calls_bound (g :: groups) []). apply Hlt. discriminate. }
  rewrite Hb. cbn [calls call]. unfold call_curry.
  apply Nat.ltb_ge in Hge. now rewrite Hge.
Qed.

End CurryFacts.

Lemma curry_groups_witness :
  calls (fun args => fold_right Z.add 0 args) 3 curry
    ([[5]; []; [3]] ++ [[1; 7]])
  = Some (Result 16).
Proof.
  apply (curry_groups (fun args => fold_right Z.add 0 args) 3
           [[5]; []; [3]] [1; 7]).
  - intros _. simpl. lia.
  - simpl. lia.
Defined.

(** ** [memoize] *)

Section MemoizeFacts.

Context {Args R : Type}.
Context (stringify : Args -> option js_string) (fn : Args -> option R).

Lemma key_eqb_eq (a b : js_string) : key_eqb a b = true <-> a = b.
Proof.
  unfold key_eqb. destruct (list_eq_dec N.eq_dec a b); split;
    congruence.
Qed.

Lemma map_get_set (c : list (js_string * R)) (k k' : js_string) (r : R) :
  map_get (map_set c k r) k'
  = if key_eqb k k' then Some r else map_get c k'.
Proof.
  induction c as [|[k0 r0] c IH]; cbn [map_set map_get].
  - reflexivity.
  - destruct (key_eqb k0 k) eqn:E0; cbn [map_get].
    + apply key_eqb_eq in E0; subst k0.
      destruct (key_eqb k k'); reflexivity.
    + destruct (key_eqb k0 k') eqn:E1; [|exact IH].
      apply key_eqb_eq in E1; subst k0.
      destruct (key_eqb k k') eqn:E2; [|reflexivity].
      apply key_eqb_eq in E2; subst k'.
      rewrite (proj2 (key_eqb_eq k k) eq_refl) in E0. discriminate.
Qed.

Lemma memoized_sound (m : memo) (args : Args) :
  cache_sound stringify fn m ->
  cache_sound stringify fn (snd (memoized stringify fn m args)).
Proof.
  intros Hm. unfold memoized.
  destruct (stringify args) as [key|] eqn:Ek; [|exact Hm].
  destruct (map_get (cache m) key); [exact Hm|].
  destruct (fn args) as [result|] eqn:Ef; [|exact Hm].
  intros k r. cbn [snd cache]. rewrite map_get_set.
  destruct (key_eqb key k) eqn:E.
  - apply key_eqb_eq in E; subst k. intros H; injection H as <-.
    now exists args.
  - apply Hm.
Qed.

Lemma after_calls_sound (history : list Args) :
  forall m, cache_sound stringify fn m ->
            cache_sound stringify fn (after_calls stringify fn m history).
Proof.
  induction history as [|a history IH]; intros m Hm; [exact Hm|].
  apply IH. now apply memoized_sound.
Qed.

(** X10: when [JSON.stringify] tells any two argument lists apart, the
    memoized function returns what [fn] returns (and throws when [fn]
    throws), whatever calls came before. *)
Theorem memoize_transparent (history : list Args) (args : Args)
        (key : js_string) :
  (forall a b k, stringify a = Some k -> stringify b = Some k -> a = b) ->
  stringify args = Some key ->
  fst (memoized stringify fn (after_calls stringify fn new_memo history) args)
  = fn args.
Proof.
  intros Hinj Hk.
  assert (Hs : cache_sound stringify fn
                 (after_calls stringify fn new_memo history)).
  { apply after_calls_sound. intros k r H. discriminate. }
  unfold memoized. rewrite Hk.
  destruct (map_get _ key) as [r|] eqn:Eg.
  - destruct (Hs key r Eg) as [a [Ha Hf]].
    rewrite (Hinj args a key Hk Ha). now rewrite Hf.
  - destruct (fn args); reflexivity.
Qed.

Lemma memoized_keeps (m : memo) (args : Args) (k : js_string) (r : R) :
  map_get (cache m) k = Some r ->
  map_get (cache (snd (memoized stringify fn m args))) k = Some r.
Proof.
  intros H. unfold memoized.
  destruct (stringify args) as [key|]; [|exact H].
  destruct (map_get (cache m) key) eqn:Eg; [exact H|].
  destruct (fn args); [|exact H].
  cbn [snd cache]. rewrite map_get_set.
  destruct (key_eqb key k) eqn:E; [|exact H].
  apply key_eqb_eq in E; subst k. congruence.
Qed.

Lemma after_calls_keeps (history : list Args) (k : js_string) (r : R) :
  forall m, map_get (cache m) k = Some r ->
            map_get (cache (after_calls stringify fn m history)) k = Some r.
Proof.
  induction history as [|a history IH]; intros m H; [exact H|].
  apply IH. now apply memoized_keeps.
Qed.

(** X11: once a call has returned a value, every later call whose
    arguments have the same JSON text returns that value, does not call
    [fn] and leaves the cache as it is, whatever calls come in between,
    and also when the arguments differ. *)
Theorem memoize_hit (m : memo) (args args' : Args) (key : js_string)
        (r : R) (history : list Args) :
  stringify args = Some key ->
  stringify args' = Some key ->
  fst (memoized stringify fn m args) = Some r ->
  memoized stringify fn
    (after_calls stringify fn (snd (memoized stringify fn m args)) history)
    args'
  = (Some r,
     after_calls stringify fn (snd (memoized stringify fn m args)) history).
Proof.
  intros Hk Hk' Hr.
  assert (Hc : map_get (cache (snd (memoized stringify fn m args))) key
               = Some r).
  { unfold memoized in *. rewrite Hk in *.
    destruct (map_get (cache m) key) eqn:Eg.
    - cbn [fst snd] in *. congruence.
    - destruct (fn args); cbn [fst snd cache] in *; [|discriminate].
      injection Hr as ->. rewrite map_get_set.
      now rewrite (proj2 (key_eqb_eq key key) eq_refl). }
  apply (after_calls_keeps history) in Hc.
  unfold memoized at 1. now rewrite Hk', Hc.
Qed.

End MemoizeFacts.

Lemma memoize_transparent_witness :
  fst (memoized (fun n : N => Some [n]) (fun n => Some (n * n)%N)
         (after_calls (fun n : N => Some [n]) (fun n => Some (n * n)%N)
            new_memo [3; 4; 3]%N)
         4%N)
  = Some 16%N.
Proof.
  apply (memoize_transparent (fun n : N => Some [n])
           (fun n => Some (n * n)%N) [3; 4; 3]%N 4%N [4%N]).
  - intros a b k Ha Hb. congruence.
  - reflexivity.
Defined.

Lemma memoize_hit_witness :
  memoized (fun n : N => Some [N.modulo n 2]) (fun n => Some (n * n)%N)
    (after_calls (fun n : N => Some [N.modulo n 2]) (fun n => Some (n * n)%N)
       (snd (memoized (fun n : N => Some [N.modulo n 2])
               (fun n => Some (n * n)%N) new_memo 3%N))
       [4%N])
    5%N
  = (Some 9%N,
     after_calls (fun n : N => Some [N.modulo n 2]) (fun n => Some (n * n)%N)
       (snd (memoized (fun n : N => Some [N.modulo n 2])
               (fun n => Some (n * n)%N) new_memo 3%N))
       [4%N]).
Proof.
  apply (memoize_hit (fun n : N => Some [N.modulo n 2])
           (fun n => Some (n * n)%N) new_memo 3%N 5%N [1%N] 9%N [4%N]);
    reflexivity.
Defined.

(** ** The template tag [html] *)

Lemma count_app (c : code_unit) (a b : js_string) :
  count c (a ++ b) = (count c a + count c b)%nat.
Proof. unfold count. now rewrite filter_app, length_app. Qed.

Lemma replace_all_flat_map (c : code_unit) (by_ : js_string)
      (f : code_unit -> js_string) (s : js_string) :
  replace_all c by_ (flat_map f s)
  = flat_map (fun u => replace_all c by_ (f u)) s.
Proof.
  unfold replace_all.
  induction s as [|u s IH]; cbn [flat_map]; [reflexivity|].
  rewrite flat_map_app. apply f_equal. exact IH.
Qed.

(** The three replacements, one after the other, treat each character
    of the value on its own. *)
Lemma escape_flat_map (s : js_string) : escape s = flat_map escape_char s.
Proof.
  unfold escape. unfold replace_all at 3.
  rewrite !replace_all_flat_map.
  apply flat_map_ext. intros u. unfold escape_char.
  destruct (N.eqb_spec u ampersand) as [->|Ha]; [reflexivity|].
  destruct (N.eqb_spec u less) as [->|Hl]; [reflexivity|].
  destruct (N.eqb_spec u greater) as [->|Hg]; [reflexivity|].
  apply N.eqb_neq in Hl, Hg.
  unfold replace_all; cbn [flat_map app]. rewrite Hl. cbn [flat_map app].
  now rewrite Hg.
Qed.

Lemma escape_char_markup (u : code_unit) :
  count less (escape_char u) = O /\ count greater (escape_char u) = O.
Proof.
  unfold escape_char.
  destruct (N.eqb_spec u ampersand) as [->|Ha]; [split; reflexivity|].
  destruct (N.eqb_spec u less) as [->|Hl]; [split; reflexivity|].
  destruct (N.eqb_spec u greater) as [->|Hg]; [split; reflexivity|].
  apply N.eqb_neq in Hl, Hg. unfold count; cbn [filter].
  now rewrite Hl, Hg.
Qed.

Lemma flat_map_escape_char_markup (s : js_string) :
  count less (flat_map escape_char s) = O
  /\ count greater (flat_map escape_char s) = O.
Proof.
  induction s as [|u s [IHl IHg]]; [split; reflexivity|].
  cbn [flat_map]. rewrite !count_app, IHl, IHg.
  destruct (escape_char_markup u) as [-> ->]. split; reflexivity.
Qed.

(** X12: the escaped form of a string value contains neither [<] nor
    [>], whatever the string. *)
Theorem escape_no_markup (s : js_string) :
  count less (escape s) = O /\ count greater (escape s) = O.
Proof.
  rewrite escape_flat_map. apply flat_map_escape_char_markup.
Qed.

Lemma escape_char_cases (u : code_unit) :
  (u = ampersand /\ escape_char u = [38; 97; 109; 112; 59]%N)
  \/ (u = less /\ escape_char u = [38; 108; 116; 59]%N)
  \/ (u = greater /\ escape_char u = [38; 103; 116; 59]%N)
  \/ (u <> 38%N /\ escape_char u = [u]).
Proof.
  unfold escape_char.
  destruct (N.eqb_spec u ampersand) as [->|Ha]; [left; split; reflexivity|].
  destruct (N.eqb_spec u less) as [->|Hl];
    [right; left; split; reflexivity|].
  destruct (N.eqb_spec u greater) as [->|Hg];
    [right; right; left; split; reflexivity|].
  right; right; right. split; [exact Ha|reflexivity].
Qed.

Lemma escape_char_prefix (u v : code_unit) (x y : js_string) :
  escape_char u ++ x = escape_char v ++ y -> u = v /\ x = y.
Proof.
  destruct (escape_char_cases u) as [[-> ->]|[[-> ->]|[[-> ->]|[Hu ->]]]];
    destruct (escape_char_cases v) as [[-> ->]|[[-> ->]|[[-> ->]|[Hv ->]]]];
    cbn [app]; intros H; injection H; intros; subst;
    try discriminate; try contradiction; split; reflexivity.
Qed.

(** X13: escaping loses nothing: two string values with the same
    escaped form are the same string. *)
Theorem escape_injective (a b : js_string) :
  escape a = escape b -> a = b.
Proof.
  rewrite !escape_flat_map. revert b.
  induction a as [|u a IH]; intros [|v b]; cbn [flat_map]; intros H.
  - reflexivity.
  - exfalso. unfold escape_char in H.
    destruct (N.eqb v ampersand); [discriminate|].
    destruct (N.eqb v less); [discriminate|].
    destruct (N.eqb v greater); discriminate.
  - exfalso. unfold escape_char in H.
    destruct (N.eqb u ampersand); [discriminate|].
    destruct (N.eqb u less); [discriminate|].
    destruct (N.eqb u greater); discriminate.
  - apply escape_char_prefix in H as [-> H]. now rewrite (IH b H).
Qed.

Lemma escape_injective_witness :
  escape (lit "a<b & c") = lit "a&lt;b &amp; c"
  /\ lit "a<b & c" = lit "a<b & c".
Proof.
  split; [reflexivity|].
  apply (escape_injective (lit "a<b & c") (lit "a<b & c")). reflexivity.
Defined.

Lemma interpolated_markup (values : list js_value) (i : nat) :
  forallb (fun v => negb (is_other v)) values = true ->
  count less (interpolated (nth i values Nullish)) = O
  /\ count greater (interpolated (nth i values Nullish)) = O.
Proof.
  intros H.
  assert (Hv : is_other (nth i values Nullish) = false).
  { revert i; induction values as [|v values IH]; intros i.
    - destruct i; reflexivity.
    - cbn [forallb] in H. apply andb_true_iff in H as [Hv H].
      destruct i as [|i]; cbn [nth].
      + now apply negb_true_iff in Hv.
      + now apply IH. }
  destruct (nth i values Nullish) as [s| |text]; cbn [interpolated].
  - rewrite escape_flat_map. apply flat_map_escape_char_markup.
  - split; reflexivity.
  - discriminate.
Qed.

(** X14: when every value in the template is a string, [undefined] or
    [null], the [<] and [>] of the result are those of the literal parts
    of the template: the values add none. *)
Theorem html_markup_from_template
        (strings : list js_string) (values : list js_value) :
  forallb (fun v => negb (is_other v)) values = true ->
  count less (html strings values) = count less (concat strings)
  /\ count greater (html strings values) = count greater (concat strings).
Proof.
  intros H. unfold html.
  assert (G : forall i result,
             count less (reduce_html strings values i result)
             = (count less result + count less (concat strings))%nat
             /\ count greater (reduce_html strings values i result)
                = (count greater result + count greater (concat strings))%nat).
  { induction strings as [|str strings IH]; intros i result;
      cbn [reduce_html concat].
    - unfold count at 3 6. cbn [filter length]. split; lia.
    - destruct (IH (S i)
                  (result ++ str ++ interpolated (nth i values Nullish)))
        as [-> ->].
      destruct (interpolated_markup values i H) as [El Eg].
      rewrite !count_app, El, Eg. split; lia. }
  destruct (G O []) as [-> ->]. split; reflexivity.
Qed.

Lemma html_markup_from_template_witness :
  html [lit "<div>Hello, "; lit "!</div>"] [Str (lit "<b>John</b>")]
  = lit "<div>Hello, &lt;b&gt;John&lt;/b&gt;!</div>"
  /\ count less
       (html [lit "<div>Hello, "; lit "!</div>"] [Str (lit "<b>John</b>")])
     = count less (concat [lit "<div>Hello, "; lit "!</div>"]).
Proof.
  split; [reflexivity|].
  exact (proj1 (html_markup_from_template
                  [lit "<div>Hello, "; lit "!</div>"]
                  [Str (lit "<b>John</b>")] eq_refl)).
Defined.

(** ** The class [EventEmitter] *)

Section MapFacts.

Context {V : Type}.

Lemma map_set_set (c : list (js_string * V)) (k : js_string) (a b : V) :
  map_set (map_set c k a) k b = map_set c k b.
Proof.
  induction c as [|[k0 v0] c IH]; cbn [map_set].
  - now rewrite (proj2 (key_eqb_eq k k) eq_refl).
  - destruct (key_eqb k0 k) eqn:E; cbn [map_set]; rewrite E.
    + reflexivity.
    + now rewrite IH.
Qed.

Lemma map_set_same (c : list (js_string * V)) (k : js_string) (v : V) :
  map_get c k = Some v -> map_set c k v = c.
Proof.
  induction c as [|[k0 v0] c IH]; cbn [map_get map_set]; [discriminate|].
  destruct (key_eqb k0 k) eqn:E.
  - intros H; injection H as ->. reflexivity.
  - intros H. now rewrite (IH H).
Qed.

Lemma map_get_set_same (c : list (js_string * V)) (k : js_string) (v : V) :
  map_get (map_set c k v) k = Some v.
Proof.
  rewrite map_get_set. now rewrite (proj2 (key_eqb_eq k k) eq_refl).
Qed.

Lemma map_get_set_other (c : list (js_string * V)) (k k' : js_string) (v : V) :
  k <> k' -> map_get (map_set c k v) k' = map_get c k'.
Proof.
  intros H. rewrite map_get_set.
  destruct (key_eqb k k') eqn:E; [|reflexivity].
  apply key_eqb_eq in E. contradiction.
Qed.

End MapFacts.

Section EventEmitterFacts.

Context {F Args : Type} (F_eq_dec : forall a b : F, {a = b} + {a <> b}).

Lemma wrapped_ids_app (a b : list (@EventEmitter.handler F)) :
  EventEmitter.wrapped_ids (a ++ b)
  = EventEmitter.wrapped_ids a ++ EventEmitter.wrapped_ids b.
Proof.
  induction a as [|[f|id f] a IH]; cbn [app EventEmitter.wrapped_ids].
  - reflexivity.
  - exact IH.
  - now rewrite IH.
Qed.

(** The wrapper that is running is found where the walk stands. *)
Lemma indexOf_wrapper (pre rest : list (@EventEmitter.handler F)) (id : nat) (f g : F) :
  ~ In id (EventEmitter.wrapped_ids pre) ->
  EventEmitter.indexOf F_eq_dec (EventEmitter.Wrapped id f)
    (pre ++ EventEmitter.Wrapped id g :: rest)
  = Some (length pre).
Proof.
  induction pre as [|[h|j h] pre IH]; intros Hid;
    cbn [app EventEmitter.indexOf EventEmitter.same
         EventEmitter.wrapped_ids length] in *.
  - now rewrite Nat.eqb_refl.
  - now rewrite (IH Hid).
  - destruct (Nat.eqb_spec j id) as [->|Hj].
    + exfalso. apply Hid. now left.
    + rewrite IH; [reflexivity|]. intros H. apply Hid. now right.
Qed.

Lemma splice1_middle (pre rest : list (@EventEmitter.handler F)) (x : @EventEmitter.handler F) :
  EventEmitter.splice1 (length pre) (pre ++ x :: rest) = pre ++ rest.
Proof.
  induction pre as [|y pre IH]; cbn [app length EventEmitter.splice1].
  - reflexivity.
  - now rewrite IH.
Qed.

Lemma nth_error_middle (pre rest : list (@EventEmitter.handler F)) (x : @EventEmitter.handler F) :
  nth_error (pre ++ x :: rest) (length pre) = Some x.
Proof.
  rewrite nth_error_app2 by lia. now rewrite Nat.sub_diag.
Qed.

(** The walk of [emit], from any point of the array: [pre] are the
    handlers behind the index, [rest] those from the index on. *)
Lemma emit_loop_from (name : js_string) (args : Args) (fuel : nat) :
  forall (rest pre : list (@EventEmitter.handler F)) (st : @EventEmitter.emitter F Args),
    map_get (EventEmitter.events st) name = Some (pre ++ rest) ->
    NoDup (EventEmitter.wrapped_ids (pre ++ rest)) ->
    (length rest <= fuel)%nat ->
    EventEmitter.emit_loop F_eq_dec fuel name args (length pre) st
    = Some {| EventEmitter.events :=
                map_set (EventEmitter.events st) name
                  (pre ++ EventEmitter.left_after rest);
              EventEmitter.next_id := EventEmitter.next_id st;
              EventEmitter.log :=
                EventEmitter.log st
                ++ map (fun f => (f, args)) (EventEmitter.called rest) |}.
Proof.
  assert (Hend : forall pre (st : @EventEmitter.emitter F Args),
             map_get (EventEmitter.events st) name = Some pre ->
             Some st
             = Some {| EventEmitter.events :=
                         map_set (EventEmitter.events st) name (pre ++ []);
                       EventEmitter.next_id := EventEmitter.next_id st;
                       EventEmitter.log := EventEmitter.log st ++ [] |}).
  { intros pre st H. rewrite !app_nil_r, (map_set_same _ _ _ H).
    now destruct st. }
  induction fuel as [|fuel IH]; intros rest pre st Hget Hnd Hfuel.
  - destruct rest; [|simpl in Hfuel; lia].
    rewrite app_nil_r in Hget. cbn [EventEmitter.emit_loop].
    rewrite Hget. rewrite (proj2 (nth_error_None pre (length pre))) by lia.
    now apply Hend.
  - cbn [EventEmitter.emit_loop]. rewrite Hget.
    destruct rest as [|[f|id f] rest].
    + rewrite app_nil_r in *.
      rewrite (proj2 (nth_error_None pre (length pre))) by lia.
      now apply Hend.
    + rewrite nth_error_middle.
      cbn [EventEmitter.invoke EventEmitter.called EventEmitter.left_after].
      replace (S (length pre)) with (length (pre ++ [EventEmitter.User f]))
        by (rewrite length_app; simpl; lia).
      rewrite (IH rest (pre ++ [EventEmitter.User f]));
        cbn [EventEmitter.events EventEmitter.next_id EventEmitter.log];
        rewrite <- ?app_assoc; cbn [app map]; trivial.
      simpl in Hfuel; lia.
    + rewrite nth_error_middle.
      cbn [EventEmitter.invoke].
      unfold EventEmitter.off. cbn [EventEmitter.events]. rewrite Hget.
      rewrite wrapped_ids_app in Hnd. cbn [EventEmitter.wrapped_ids] in Hnd.
      pose proof (NoDup_remove_1 _ _ _ Hnd) as Hnd1.
      pose proof (NoDup_remove_2 _ _ _ Hnd) as Hnd2.
      rewrite indexOf_wrapper
        by (intros H; apply Hnd2; apply in_or_app; now left).
      rewrite splice1_middle.
      cbn [EventEmitter.next_id EventEmitter.log].
      destruct rest as [|x rest].
      * rewrite app_nil_r.
        destruct fuel as [|fuel]; cbn [EventEmitter.emit_loop];
          cbn [EventEmitter.events]; rewrite map_get_set_same;
          rewrite (proj2 (nth_error_None pre (S (length pre)))) by lia;
          cbn [EventEmitter.called EventEmitter.left_after map];
          rewrite app_nil_r; reflexivity.
      * replace (S (length pre)) with (length (pre ++ [x]))
          by (rewrite length_app; simpl; lia).
        rewrite (IH rest (pre ++ [x]));
          cbn [EventEmitter.events EventEmitter.next_id EventEmitter.log].
        -- rewrite map_set_set.
           cbn [EventEmitter.called EventEmitter.left_after map].
           rewrite <- !app_assoc. reflexivity.
        -- rewrite map_get_set_same, <- app_assoc. reflexivity.
        -- rewrite <- app_assoc. cbn [app].
           rewrite wrapped_ids_app. exact Hnd1.
        -- simpl in Hfuel; lia.
Qed.

Lemma emit_from_start (name : js_string) (args : Args)
      (st : @EventEmitter.emitter F Args)
      (handlers : list (@EventEmitter.handler F)) :
  map_get (EventEmitter.events st) name = Some handlers ->
  NoDup (EventEmitter.wrapped_ids handlers) ->
  EventEmitter.emit F_eq_dec name args st
  = Some {| EventEmitter.events :=
              map_set (EventEmitter.events st) name
                (EventEmitter.left_after handlers);
            EventEmitter.next_id := EventEmitter.next_id st;
            EventEmitter.log :=
              EventEmitter.log st
              ++ map (fun f => (f, args)) (EventEmitter.called handlers) |}.
Proof.
  intros Hget Hnd. unfold EventEmitter.emit. rewrite Hget.
  exact (emit_loop_from name args (length handlers) handlers [] st
           Hget Hnd (le_n _)).
Qed.

(** What [left_after] leaves was there before. *)
Lemma left_after_ids (handlers : list (@EventEmitter.handler F)) :
  (NoDup (EventEmitter.wrapped_ids handlers) ->
   NoDup (EventEmitter.wrapped_ids (EventEmitter.left_after handlers)))
  /\ forall P : nat -> Prop,
       Forall P (EventEmitter.wrapped_ids handlers) ->
       Forall P (EventEmitter.wrapped_ids (EventEmitter.left_after handlers)).
Proof.
  assert (G : forall n (hs : list (@EventEmitter.handler F)),
             (length hs <= n)%nat ->
             (NoDup (EventEmitter.wrapped_ids hs) ->
              NoDup (EventEmitter.wrapped_ids (EventEmitter.left_after hs)))
             /\ forall P : nat -> Prop,
                  Forall P (EventEmitter.wrapped_ids hs) ->
                  Forall P (EventEmitter.wrapped_ids
                              (EventEmitter.left_after hs))).
  { induction n as [|n IH]; intros hs Hn.
    - destruct hs; [|simpl in Hn; lia]. split; auto.
    - destruct hs as [|[f|id f] hs]; [split; auto| |].
      + cbn [EventEmitter.left_after EventEmitter.wrapped_ids].
        apply IH. simpl in Hn; lia.
      + destruct hs as [|x hs];
          cbn [EventEmitter.left_after EventEmitter.wrapped_ids].
        * split; [constructor|constructor].
        * destruct (IH hs) as [IH1 IH2]; [simpl in Hn; lia|].
          split.
          -- intros H. inversion H as [|? ? Hid H']; subst.
             destruct x as [g|j g]; cbn [EventEmitter.wrapped_ids] in *.
             ++ now apply IH1.
             ++ inversion H' as [|? ? Hj H'']; subst.
                constructor; [|now apply IH1].
                intros Hin. apply Hj.
                pose proof (IH2 (fun i => In i (EventEmitter.wrapped_ids hs)))
                  as Hall.
                rewrite Forall_forall in Hall.
                rewrite Forall_forall in Hall.
                now apply Hall.
          -- intros P H. inversion H as [|? ? Hid H']; subst.
             destruct x as [g|j g]; cbn [EventEmitter.wrapped_ids] in *.
             ++ now apply IH2.
             ++ inversion H' as [|? ? Hj H'']; subst.
                constructor; [exact Hj|now apply IH2]. }
  exact (G (length handlers) handlers (le_n _)).
Qed.

Lemma splice1_ids (handlers : list (@EventEmitter.handler F)) :
  forall index,
    (NoDup (EventEmitter.wrapped_ids handlers) ->
     NoDup (EventEmitter.wrapped_ids (EventEmitter.splice1 index handlers)))
    /\ forall P : nat -> Prop,
         Forall P (EventEmitter.wrapped_ids handlers) ->
         Forall P (EventEmitter.wrapped_ids
                     (EventEmitter.splice1 index handlers)).
Proof.
  induction handlers as [|[f|id f] handlers IH]; intros index;
    cbn [EventEmitter.splice1 EventEmitter.wrapped_ids].
  - destruct index; split; auto.
  - destruct index as [|index]; cbn [EventEmitter.wrapped_ids];
      [split; auto|apply IH].
  - destruct index as [|index]; cbn [EventEmitter.wrapped_ids].
    + split.
      * intros H. now inversion H.
      * intros P H. now inversion H.
    + destruct (IH index) as [IH1 IH2]. split.
      * intros H. inversion H as [|? ? Hid H']; subst.
        constructor; [|now apply IH1].
        intros Hin. apply Hid.
        pose proof (IH2 (fun i => In i (EventEmitter.wrapped_ids handlers)))
          as Hall.
        rewrite Forall_forall in Hall. rewrite Forall_forall in Hall.
        now apply Hall.
      * intros P H. inversion H as [|? ? Hid H']; subst.
        constructor; [exact Hid|now apply IH2].
Qed.

Lemma on_next_id (name : js_string) (h : @EventEmitter.handler F)
      (st : @EventEmitter.emitter F Args) :
  EventEmitter.next_id (EventEmitter.on name h st) = EventEmitter.next_id st.
Proof.
  unfold EventEmitter.on.
  destruct (map_get (EventEmitter.events st) name) eqn:E.
  - rewrite E. reflexivity.
  - rewrite map_get_set_same. reflexivity.
Qed.

Lemma off_next_id (name : js_string) (h : @EventEmitter.handler F)
      (st : @EventEmitter.emitter F Args) :
  EventEmitter.next_id (EventEmitter.off F_eq_dec name h st)
  = EventEmitter.next_id st.
Proof.
  unfold EventEmitter.off.
  destruct (map_get (EventEmitter.events st) name); [|reflexivity].
  destruct (EventEmitter.indexOf F_eq_dec h l); reflexivity.
Qed.

(** Every emitter a user can make keeps the wrappers of each array
    distinct. *)
Lemma built_distinct (st : @EventEmitter.emitter F Args) :
  EventEmitter.built F_eq_dec st -> EventEmitter.distinct_wrappers st.
Proof.
  induction 1 as [|name f st Hb IH|name f st Hb IH|name f st Hb IH
                  |name args st st' Hb IH He];
    intros name' handlers' Hget.
  - discriminate.
  - rewrite on_next_id. unfold EventEmitter.on in Hget.
    destruct (map_get (EventEmitter.events st) name) as [hs|] eqn:Eg.
    + rewrite Eg in Hget.
      cbn [EventEmitter.events EventEmitter.next_id] in *.
      destruct (list_eq_dec N.eq_dec name name') as [<-|Hne].
      * rewrite map_get_set_same in Hget. injection Hget as <-.
        rewrite wrapped_ids_app. cbn [EventEmitter.wrapped_ids].
        rewrite app_nil_r. exact (IH name hs Eg).
      * rewrite map_get_set_other in Hget by exact Hne.
        exact (IH name' handlers' Hget).
    + rewrite map_get_set_same in Hget.
      cbn [EventEmitter.events EventEmitter.next_id] in *.
      rewrite map_set_set in Hget.
      destruct (list_eq_dec N.eq_dec name name') as [<-|Hne].
      * rewrite map_get_set_same in Hget. injection Hget as <-.
        split; constructor.
      * rewrite map_get_set_other in Hget by exact Hne.
        exact (IH name' handlers' Hget).
  - unfold EventEmitter.once. rewrite on_next_id.
    cbn [EventEmitter.next_id].
    unfold EventEmitter.once, EventEmitter.on in Hget.
    cbn [EventEmitter.events EventEmitter.next_id] in Hget.
    assert (Hnew : forall hs : list (@EventEmitter.handler F),
               NoDup (EventEmitter.wrapped_ids hs)
               /\ Forall (fun id => (id < EventEmitter.next_id st)%nat)
                    (EventEmitter.wrapped_ids hs) ->
               NoDup (EventEmitter.wrapped_ids
                        (hs ++ [EventEmitter.Wrapped
                                  (EventEmitter.next_id st) f]))
               /\ Forall (fun id => (id < S (EventEmitter.next_id st))%nat)
                    (EventEmitter.wrapped_ids
                       (hs ++ [EventEmitter.Wrapped
                                 (EventEmitter.next_id st) f]))).
    { intros hs [Hnd Hlt]. rewrite wrapped_ids_app.
      cbn [EventEmitter.wrapped_ids]. split.
      - apply NoDup_app; [exact Hnd|repeat constructor; intros []|].
        intros id Hin [<-|[]]. rewrite Forall_forall in Hlt.
        specialize (Hlt _ Hin). lia.
      - apply Forall_app. split.
        + eapply Forall_impl; [|exact Hlt]. cbv beta. intros; lia.
        + repeat constructor. }
    assert (Hold : forall hs : list (@EventEmitter.handler F),
               NoDup (EventEmitter.wrapped_ids hs)
               /\ Forall (fun id => (id < EventEmitter.next_id st)%nat)
                    (EventEmitter.wrapped_ids hs) ->
               NoDup (EventEmitter.wrapped_ids hs)
               /\ Forall (fun id => (id < S (EventEmitter.next_id st))%nat)
                    (EventEmitter.wrapped_ids hs)).
    { intros hs [Hnd Hlt]. split; [exact Hnd|].
      eapply Forall_impl; [|exact Hlt]. cbv beta. intros; lia. }
    destruct (map_get (EventEmitter.events st) name) as [hs|] eqn:Eg.
    + rewrite Eg in Hget.
      cbn [EventEmitter.events EventEmitter.next_id] in *.
      destruct (list_eq_dec N.eq_dec name name') as [<-|Hne].
      * rewrite map_get_set_same in Hget. injection Hget as <-.
        apply Hnew. exact (IH name hs Eg).
      * rewrite map_get_set_other in Hget by exact Hne.
        apply Hold. exact (IH name' handlers' Hget).
    + rewrite map_get_set_same in Hget.
      cbn [EventEmitter.events EventEmitter.next_id] in *.
      rewrite map_set_set in Hget.
      destruct (list_eq_dec N.eq_dec name name') as [<-|Hne].
      * rewrite map_get_set_same in Hget. injection Hget as <-.
        apply (Hnew []). split; constructor.
      * rewrite map_get_set_other in Hget by exact Hne.
        apply Hold. exact (IH name' handlers' Hget).
  - rewrite off_next_id. unfold EventEmitter.off in Hget.
    destruct (map_get (EventEmitter.events st) name) as [hs|] eqn:Eg;
      [|exact (IH name' handlers' Hget)].
    destruct (EventEmitter.indexOf F_eq_dec (EventEmitter.User f) hs)
      as [index|]; [|exact (IH name' handlers' Hget)].
    cbn [EventEmitter.events EventEmitter.next_id] in *.
    destruct (list_eq_dec N.eq_dec name name') as [<-|Hne].
    + rewrite map_get_set_same in Hget. injection Hget as <-.
      destruct (IH name hs Eg) as [Hnd Hlt].
      destruct (splice1_ids hs index) as [S1 S2]. split; auto.
    + rewrite map_get_set_other in Hget by exact Hne.
      exact (IH name' handlers' Hget).
  - unfold EventEmitter.emit in He.
    destruct (map_get (EventEmitter.events st) name) as [hs|] eqn:Eg.
    + destruct (IH name hs Eg) as [Hnd Hlt].
      fold (EventEmitter.emit F_eq_dec name args st) in He.
      pose proof (emit_from_start name args st hs Eg Hnd) as E.
      unfold EventEmitter.emit in E. rewrite Eg in E. rewrite E in He.
      injection He as <-.
      cbn [EventEmitter.events EventEmitter.next_id] in *.
      destruct (list_eq_dec N.eq_dec name name') as [<-|Hne].
      * rewrite map_get_set_same in Hget. injection Hget as <-.
        destruct (left_after_ids hs) as [L1 L2]. split; auto.
      * rewrite map_get_set_other in Hget by exact Hne.
        exact (IH name' handlers' Hget).
    + injection He as <-. exact (IH name' handlers' Hget).
Qed.

(** X15: [emit] on an emitter that a user has made, with [handlers]
    registered for the event: the functions called are those of
    [called handlers], in order, each with the arguments given; the
    wrappers of [once] that were called are taken out of the array, and
    each of them makes the walk pass over the handler that follows it,
    which is not called in this [emit] and stays registered. *)
Theorem emit_of_built (st : @EventEmitter.emitter F Args)
        (name : js_string) (args : Args)
        (handlers : list (@EventEmitter.handler F)) :
  EventEmitter.built F_eq_dec st ->
  map_get (EventEmitter.events st) name = Some handlers ->
  EventEmitter.emit F_eq_dec name args st
  = Some {| EventEmitter.events :=
              map_set (EventEmitter.events st) name
                (EventEmitter.left_after handlers);
            EventEmitter.next_id := EventEmitter.next_id st;
            EventEmitter.log :=
              EventEmitter.log st
              ++ map (fun f => (f, args)) (EventEmitter.called handlers) |}.
Proof.
  intros Hb Hget.
  apply emit_from_start; [exact Hget|].
  exact (proj1 (built_distinct st Hb name handlers Hget)).
Qed.

Lemma called_users (fs : list F) :
  EventEmitter.called (map (@EventEmitter.User F) fs) = fs
  /\ EventEmitter.left_after (map (@EventEmitter.User F) fs)
     = map (@EventEmitter.User F) fs
  /\ EventEmitter.wrapped_ids (map (@EventEmitter.User F) fs) = [].
Proof.
  induction fs as [|f fs [IH1 [IH2 IH3]]]; [repeat split|].
  cbn [map EventEmitter.called EventEmitter.left_after
       EventEmitter.wrapped_ids].
  now rewrite IH1, IH2, IH3.
Qed.

(** X16: when only functions registered with [on] are there for an
    event, [emit] calls each of them once, in the order they were
    registered in, with the arguments given, and leaves every
    registration as it is. *)
Theorem emit_calls_all (st : @EventEmitter.emitter F Args)
        (name : js_string) (args : Args) (fs : list F) :
  map_get (EventEmitter.events st) name
  = Some (map (@EventEmitter.User F) fs) ->
  EventEmitter.emit F_eq_dec name args st
  = Some {| EventEmitter.events := EventEmitter.events st;
            EventEmitter.next_id := EventEmitter.next_id st;
            EventEmitter.log :=
              EventEmitter.log st ++ map (fun f => (f, args)) fs |}.
Proof.
  intros Hget. destruct (called_users fs) as [E1 [E2 E3]].
  rewrite (emit_from_start name args st _ Hget)
    by (rewrite E3; constructor).
  now rewrite E1, E2, (map_set_same _ _ _ Hget).
Qed.

Lemma indexOf_app (h : @EventEmitter.handler F)
      (a b : list (@EventEmitter.handler F)) :
  EventEmitter.indexOf F_eq_dec h (a ++ b)
  = match EventEmitter.indexOf F_eq_dec h a with
    | Some index => Some index
    | None => option_map (Nat.add (length a))
                (EventEmitter.indexOf F_eq_dec h b)
    end.
Proof.
  induction a as [|x a IH]; cbn [app EventEmitter.indexOf length].
  - destruct (EventEmitter.indexOf F_eq_dec h b); reflexivity.
  - destruct (EventEmitter.same F_eq_dec x h); [reflexivity|].
    rewrite IH.
    destruct (EventEmitter.indexOf F_eq_dec h a); [reflexivity|].
    destruct (EventEmitter.indexOf F_eq_dec h b); reflexivity.
Qed.

Lemma splice1_found (h : @EventEmitter.handler F)
      (a b : list (@EventEmitter.handler F)) (index : nat) :
  EventEmitter.indexOf F_eq_dec h a = Some index ->
  EventEmitter.splice1 index (a ++ b) = EventEmitter.splice1 index a ++ b.
Proof.
  revert index; induction a as [|x a IH]; intros index;
    cbn [EventEmitter.indexOf]; [discriminate|].
  destruct (EventEmitter.same F_eq_dec x h).
  - intros H; injection H as <-. reflexivity.
  - destruct (EventEmitter.indexOf F_eq_dec h a) as [j|]; [|discriminate].
    intros H; injection H as <-.
    cbn [app EventEmitter.splice1]. now rewrite (IH j).
Qed.

Lemma same_refl (h : @EventEmitter.handler F) :
  EventEmitter.same F_eq_dec h h = true.
Proof.
  destruct h as [f|id f]; cbn [EventEmitter.same].
  - destruct (F_eq_dec f f); [reflexivity|contradiction].
  - apply Nat.eqb_refl.
Qed.

(** X17: [off] takes away the oldest registration of a handler, not the
    one [on] has just made: after [on] and [off] of the same handler the
    array of the event is as it was when the handler was not in it (an
    event never seen before keeps an empty array), and otherwise it has
    lost the first occurrence of the handler and has it at its end. *)
Theorem off_after_on (st : @EventEmitter.emitter F Args)
        (name : js_string) (h : @EventEmitter.handler F) :
  map_get
    (EventEmitter.events
       (EventEmitter.off F_eq_dec name h (EventEmitter.on name h st)))
    name
  = Some (let handlers :=
            match map_get (EventEmitter.events st) name with
            | Some handlers => handlers
            | None => []
            end in
          match EventEmitter.indexOf F_eq_dec h handlers with
          | None => handlers
          | Some index => EventEmitter.splice1 index handlers ++ [h]
          end).
Proof.
  assert (G : forall events1 (hs : list (@EventEmitter.handler F)),
             map_get events1 name = Some hs ->
             map_get
               (EventEmitter.events
                  (EventEmitter.off F_eq_dec name h
                     {| EventEmitter.events := map_set events1 name (hs ++ [h]);
                        EventEmitter.next_id := EventEmitter.next_id st;
                        EventEmitter.log := EventEmitter.log st |}))
               name
             = Some match EventEmitter.indexOf F_eq_dec h hs with
                    | None => hs
                    | Some index => EventEmitter.splice1 index hs ++ [h]
                    end).
  { intros events1 hs Hget. unfold EventEmitter.off.
    cbn [EventEmitter.events]. rewrite map_get_set_same, indexOf_app.
    destruct (EventEmitter.indexOf F_eq_dec h hs) as [index|] eqn:Ei.
    - cbn [EventEmitter.events]. rewrite map_get_set_same.
      now rewrite (splice1_found h hs [h] index Ei).
    - cbn [EventEmitter.indexOf]. rewrite same_refl.
      cbn [option_map EventEmitter.events].
      rewrite map_get_set_same, Nat.add_0_r, splice1_middle.
      now rewrite app_nil_r. }
  unfold EventEmitter.on.
  destruct (map_get (EventEmitter.events st) name) as [hs|] eqn:Eg.
  - rewrite Eg. exact (G _ hs Eg).
  - rewrite map_get_set_same.
    exact (G _ [] (map_get_set_same _ _ _)).
Qed.

End EventEmitterFacts.

Lemma emit_of_built_witness :
  EventEmitter.emit Nat.eq_dec (lit "save") 7%nat
    (EventEmitter.on (lit "save") (EventEmitter.User 2%nat)
       (EventEmitter.once (lit "save") 1%nat EventEmitter.create))
  = Some {| EventEmitter.events := [(lit "save", [EventEmitter.User 2%nat])];
            EventEmitter.next_id := 1;
            EventEmitter.log := [(1%nat, 7%nat)] |}.
Proof.
  apply (emit_of_built Nat.eq_dec
           (EventEmitter.on (lit "save") (EventEmitter.User 2%nat)
              (EventEmitter.once (lit "save") 1%nat EventEmitter.create))
           (lit "save") 7%nat
           [EventEmitter.Wrapped 0 1%nat; EventEmitter.User 2%nat]).
  - apply EventEmitter.built_on, EventEmitter.built_once,
      EventEmitter.built_create.
  - reflexivity.
Defined.

Lemma emit_calls_all_witness :
  EventEmitter.emit Nat.eq_dec (lit "save") 7%nat
    (EventEmitter.on (lit "save") (EventEmitter.User 2%nat)
       (EventEmitter.on (lit "save") (EventEmitter.User 1%nat)
          EventEmitter.create))
  = Some {| EventEmitter.events :=
              [(lit "save", [EventEmitter.User 1%nat; EventEmitter.User 2%nat])];
            EventEmitter.next_id := 0;
            EventEmitter.log := [(1%nat, 7%nat); (2%nat, 7%nat)] |}.
Proof.
  apply (emit_calls_all Nat.eq_dec
           (EventEmitter.on (lit "save") (EventEmitter.User 2%nat)
              (EventEmitter.on (lit "save") (EventEmitter.User 1%nat)
                 EventEmitter.create))
           (lit "save") 7%nat [1%nat; 2%nat]).
  reflexivity.
Defined.

(** ** The class factory [createModel] *)

Section CreateModelFacts.

Context {V : Type}.

Lemma construct_proto_assigned (entries : list (js_string * (V -> bool)))
      (data : js_string -> V) (fields : list (js_string * V)) :
  construct entries data None <> Model fields.
Proof.
  induction entries as [|[key validator] entries IH]; cbn [construct].
  - discriminate.
  - destruct (validator (data key)); [|discriminate].
    unfold assign. now destruct (key_eqb key proto_key).
Qed.

Lemma construct_model (entries : list (js_string * (V -> bool)))
      (data : js_string -> V) :
  forall this fields,
    (forall k v, map_get this k = Some v -> v = data k) ->
    construct entries data (Some this) = Model fields ->
    (forall k v, map_get fields k = Some v ->
                 v = data k
                 /\ (map_get this k = Some v
                     \/ exists validator, In (k, validator) entries))
    /\ (forall k v, map_get this k = Some v -> map_get fields k = Some v)
    /\ (forall key validator,
          In (key, validator) entries ->
          map_get fields key = Some (data key)
          /\ validator (data key) = true)
    /\ forall validator, ~ In (proto_key, validator) entries.
Proof.
  induction entries as [|[key validator] entries IH];
    intros this fields Hthis H; cbn [construct] in H.
  - injection H as <-. repeat split.
    + now apply Hthis.
    + now left.
    + trivial.
    + destruct H.
    + destruct H.
    + intros validator [].
  - destruct (validator (data key)) eqn:Ev; [|discriminate].
    unfold assign in H.
    destruct (key_eqb key proto_key) eqn:Ep;
      [now apply construct_proto_assigned in H|].
    assert (Hthis' : forall k v, map_get (map_set this key (data key)) k
                                 = Some v -> v = data k).
    { intros k v. rewrite map_get_set.
      destruct (key_eqb key k) eqn:E.
      - apply key_eqb_eq in E; subst k. congruence.
      - apply Hthis. }
    destruct (IH _ _ Hthis' H) as [H1 [H2 [H3 H4]]].
    assert (Hkey : map_get fields key = Some (data key)).
    { apply H2. apply map_get_set_same. }
    split; [|split; [|split]].
    + intros k v Hk. split; [now apply (H1 k v)|].
      destruct (H1 k v Hk) as [_ [Hin|[w Hin]]].
      * rewrite map_get_set in Hin.
        destruct (key_eqb key k) eqn:E; [|now left].
        apply key_eqb_eq in E; subst k.
        right. exists validator. now left.
      * right. exists w. now right.
    + intros k v Hk. apply H2. rewrite map_get_set.
      destruct (key_eqb key k) eqn:E; [|exact Hk].
      apply key_eqb_eq in E; subst k. f_equal. symmetry. now apply Hthis.
    + intros key0 validator0 [H0|H0].
      * injection H0 as <- <-. now split.
      * now apply (H3 key0 validator0).
    + intros validator0 [H0|H0].
      * injection H0 as -> _.
        rewrite (proj2 (key_eqb_eq proto_key proto_key) eq_refl) in Ep.
        discriminate.
      * now apply (H4 validator0).
Qed.

(** X18: an object that the constructor returns with its own properties
    known, that is, one no [__proto__] of which was assigned, satisfies
    its schema: it has each key of the schema, with the value the data
    have for that key, which the validator of the key accepts; it has no
    other property; and the schema has no key [__proto__], which would
    have added no property to the object. *)
Theorem createModel_valid (schema : list (js_string * (V -> bool)))
        (data : js_string -> V) (fields : list (js_string * V)) :
  createModel schema data = Model fields ->
  (forall key validator,
      In (key, validator) schema ->
      map_get fields key = Some (data key) /\ validator (data key) = true)
  /\ (forall key value,
        map_get fields key = Some value ->
        value = data key /\ exists validator, In (key, validator) schema)
  /\ forall validator, ~ In (proto_key, validator) schema.
Proof.
  intros H. unfold createModel in H.
  destruct (construct_model schema data [] fields) as [H1 [_ [H3 H4]]];
    [discriminate|exact H|].
  split; [exact H3|]. split; [|exact H4].
  intros key value Hg. destruct (H1 key value Hg) as [E [Hn|Hin]].
  - discriminate.
  - now split.
Qed.



End CreateModelFacts.

(** A schema with the key [__proto__]: the constructor returns, and the
    model does not say which properties the object has. *)
Example createModel_proto_key :
  createModel [(lit "__proto__", fun v : N => true);
               (lit "age", fun v : N => N.ltb v 150)]
    (fun key => N.of_nat (length key))
  = ProtoAssigned.
Proof. reflexivity. Qed.

Lemma createModel_valid_witness :
  createModel [(lit "name", fun v : N => N.ltb 0 v);
               (lit "age", fun v : N => N.ltb v 150)]
    (fun key => N.of_nat (length key))
  = Model [(lit "name", 4%N); (lit "age", 3%N)]
  /\ map_get [(lit "name", 4%N); (lit "age", 3%N)] (lit "age") = Some 3%N.
Proof.
  split; [reflexivity|].
  refine (proj1 (proj1 (createModel_valid
                          [(lit "name", fun v : N => N.ltb 0 v);
                           (lit "age", fun v : N => N.ltb v 150)]
                          (fun key => N.of_nat (length key))
                          [(lit "name", 4%N); (lit "age", 3%N)] eq_refl)
                   (lit "age") (fun v : N => N.ltb v 150) _)).
  right; left; reflexivity.
Defined.
